(** * The LFU cache of [0x01-caching/100-lfu_cache.py]

    A shallow embedding of the class [LFUCache] (methods [__init__], [put]
    and [get]) together with the Python containers it is built from, and
    the properties of its eviction policy.

    Python objects are modelled as follows.
    - [self.cache_data] is an [OrderedDict] whose order is never consulted
      by this class (only [in], [len], [pop], item assignment and item
      lookup are used): a [gmap K V].
    - [self.frequency] is a [defaultdict(int)]: a [gmap K nat] whose item
      lookup inserts [0] for a missing key.
    - [self.lru] is a [defaultdict(OrderedDict)]: a [gmap nat bucket] whose
      item lookup inserts an empty bucket for a missing frequency.  A bucket
      is an [OrderedDict] whose iteration order matters ([next(iter(..))]):
      an association list in insertion order.
    - [None] arguments are [None] of an [option]; values that are stored are
      never [None] (the guard of [put] refuses them).
    - [print] appends a line to the output of the call.
    - A raised exception ends the call; the mutations made before it stay. *)

From stdpp Require Import gmap strings list fin_maps sorting.

Module lfu_cache.

(** ** Python containers *)

(** The exceptions the container operations of this file can raise. *)
Inductive exn := KeyError | ValueError | StopIteration.

(** An [OrderedDict] from keys to sequence stamps, oldest insertion first. *)
Abbreviation bucket K := (list (K * nat)).

Section ordered_dict.
Context {K : Type} `{EqDecision K}.

Definition od_keys (b : bucket K) : list K := b.*1.

(** [b[k]] for a key that may be missing. *)
Fixpoint od_get (k : K) (b : bucket K) : option nat :=
  match b with
  | [] => None
  | (k', c) :: b' => if decide (k' = k) then Some c else od_get k b'
  end.

(** [b.pop(k)]: [None] stands for [KeyError]; the popped stamp is
    discarded by every caller. *)
Definition od_pop (k : K) (b : bucket K) : option (bucket K) :=
  if decide (k ∈ od_keys b) then Some (filter (λ e, e.1 ≠ k) b) else None.

(** [b[k] = c]: a key that is already there keeps its position, a new key
    goes to the end. *)
Fixpoint od_setitem (k : K) (c : nat) (b : bucket K) : bucket K :=
  match b with
  | [] => [(k, c)]
  | (k', c') :: b' =>
      if decide (k' = k) then (k', c) :: b' else (k', c') :: od_setitem k c b'
  end.

(** The order on entries by their stamps. *)
Definition stamp_lt : relation (K * nat) := λ e1 e2, e1.2 < e2.2.

(** [next(iter(b))]: [None] stands for [StopIteration]. *)
Definition od_first (b : bucket K) : option K := head (od_keys b).
End ordered_dict.

(** [min(xs)]: [None] stands for [ValueError] (empty argument). *)
Definition py_min (xs : list nat) : option nat :=
  match xs with
  | [] => None
  | x :: xs' => Some (foldr Nat.min x xs')
  end.

(** ** The class *)

Section LFUCache.
Context {K : Type} `{Countable K} {V : Type}.

(** [BaseCaching.MAX_ITEMS], the capacity as a count of entries.  The class
    [BaseCaching] lives in [base_caching.py], which is not among the
    sources at hand: the constant is a parameter of the development. *)
Variable MAX_ITEMS : nat.
(** How an f-string renders a key (the built-in [format]). *)
Variable format : K → string.

Record LFUCache := mkLFUCache {
  cache_data : gmap K V;
  frequency : gmap K nat;
  lru : gmap nat (bucket K);
  lru_counter : nat
}.

Definition set_cache_data (f : gmap K V → gmap K V) (s : LFUCache) :=
  mkLFUCache (f (cache_data s)) (frequency s) (lru s) (lru_counter s).
Definition set_frequency (f : gmap K nat → gmap K nat) (s : LFUCache) :=
  mkLFUCache (cache_data s) (f (frequency s)) (lru s) (lru_counter s).
Definition set_lru
    (f : gmap nat (bucket K) → gmap nat (bucket K)) (s : LFUCache) :=
  mkLFUCache (cache_data s) (frequency s) (f (lru s)) (lru_counter s).
Definition set_lru_counter (f : nat → nat) (s : LFUCache) :=
  mkLFUCache (cache_data s) (frequency s) (lru s) (f (lru_counter s)).

(** *** Method bodies: state, exceptions and printed lines *)

Inductive outcome (A : Type) :=
| Returns (a : A)
| Raises (e : exn).
Global Arguments Returns {A} a.
Global Arguments Raises {A} e.

(** A method body maps the object to how the call ended, the object as the
    call left it and the lines it printed. *)
Definition M (A : Type) : Type := LFUCache → outcome A * LFUCache * list string.

Definition ret {A} (a : A) : M A := λ s, (Returns a, s, []).
Definition bind {A B} (m : M A) (f : A → M B) : M B := λ s,
  match m s with
  | (Returns a, s1, o1) =>
      match f a s1 with (r, s2, o2) => (r, s2, o1 ++ o2) end
  | (Raises e, s1, o1) => (Raises e, s1, o1)
  end.
Definition raise {A} (e : exn) : M A := λ s, (Raises e, s, []).
Definition read {A} (f : LFUCache → A) : M A := λ s, (Returns (f s), s, []).
Definition write (f : LFUCache → LFUCache) : M unit :=
  λ s, (Returns tt, f s, []).
Definition print (line : string) : M unit := λ s, (Returns tt, s, [line]).
Definition or_raise {A} (e : exn) (o : option A) : M A :=
  match o with Some a => ret a | None => raise e end.

Local Instance M_ret : MRet M := @ret.
Local Instance M_bind : MBind M := λ A B f m, bind m f.

(** [d.pop(k)] on a dict: [KeyError] for a missing key (also on a
    [defaultdict], whose [pop] does not call the default factory). *)
Definition dict_pop {A} `{Countable A} {B}
    (field : LFUCache → gmap A B)
    (set : (gmap A B → gmap A B) → LFUCache → LFUCache) (k : A) : M unit :=
  d ← read field;
  match d !! k with
  | Some _ => write (set (delete k))
  | None => raise KeyError
  end.

(** [self.frequency[k]]: a missing key is inserted with [int() = 0]. *)
Definition frequency_getitem (k : K) : M nat :=
  d ← read frequency;
  match d !! k with
  | Some f => ret f
  | None => write (set_frequency <[k := 0]>);; ret 0
  end.

(** [self.lru[f]]: a missing frequency is inserted with an empty
    [OrderedDict].  The bucket it returns is the object in the dict:
    mutations of it are stored back with [lru_store]. *)
Definition lru_getitem (f : nat) : M (bucket K) :=
  d ← read lru;
  match d !! f with
  | Some b => ret b
  | None => write (set_lru <[f := []]>);; ret []
  end.
Definition lru_store (f : nat) (b : bucket K) : M unit :=
  write (set_lru <[f := b]>).

(** [self.lru[f].pop(k)] followed by
    [if not self.lru[f]: self.lru.pop(f)]. *)
Definition lru_bucket_pop (f : nat) (k : K) : M unit :=
  b ← lru_getitem f;
  b' ← or_raise KeyError (od_pop k b);
  lru_store f b';;
  b ← lru_getitem f;
  match b with
  | [] => dict_pop lru set_lru f
  | _ :: _ => ret tt
  end.

(** [self.lru[f][k] = self.lru_counter] followed by
    [self.lru_counter += 1]. *)
Definition lru_bucket_stamp (f : nat) (k : K) : M unit :=
  c ← read lru_counter;
  b ← lru_getitem f;
  lru_store f (od_setitem k c b);;
  c ← read lru_counter;
  write (set_lru_counter (λ _, c + 1)).

(** [LFUCache.__init__] *)
Definition init : LFUCache := mkLFUCache ∅ ∅ ∅ 0.

(** [LFUCache.get] *)
Definition get (key : option K) : M (option V) :=
  match key with
  | None => ret None
  | Some key =>
      data ← read cache_data;
      match data !! key with
      | None => ret None
      | Some value =>                                  (* line 86 *)
          freq ← frequency_getitem key;                (* line 88 *)
          f ← frequency_getitem key;                   (* line 89 *)
          write (set_frequency <[key := f + 1]>);;
          lru_bucket_pop freq key;;                    (* lines 90-92 *)
          lru_bucket_stamp (freq + 1) key;;            (* lines 93-94 *)
          ret (Some value)
      end
  end.

(** The eviction branch of [put] (lines 58 to 65). *)
Definition evict : M unit :=
  freqs ← read frequency;
  min_freq ← or_raise ValueError (py_min (map_to_list freqs).*2);
  b ← lru_getitem min_freq;
  lru_key ← or_raise StopIteration (od_first b);
  dict_pop cache_data set_cache_data lru_key;;
  dict_pop frequency set_frequency lru_key;;
  lru_bucket_pop min_freq lru_key;;
  print ("DISCARD: " +:+ format lru_key).

(** [LFUCache.put] *)
Definition put (key : option K) (item : option V) : M unit :=
  match key, item with
  | Some key, Some item =>
      data ← read cache_data;
      if decide (is_Some (data !! key)) then           (* line 52 *)
        write (set_cache_data <[key := item]>);;
        get (Some key);;
        ret tt
      else
        data ← read cache_data;                        (* line 57 *)
        (if decide (MAX_ITEMS ≤ size data) then evict else ret tt);;
        write (set_cache_data <[key := item]>);;       (* line 67 *)
        write (set_frequency <[key := 1]>);;           (* line 68 *)
        lru_bucket_stamp 1 key                         (* lines 69-70 *)
  | _, _ => ret tt
  end.

(** *** Call histories *)

(** A call of one of the two public methods, with its arguments. *)
Inductive call :=
| Put (key : option K) (item : option V)
| Get (key : option K).

(** The object after a call, whether the call returned or raised. *)
Definition step (c : call) (s : LFUCache) : LFUCache :=
  match c with
  | Put key item => (put key item s).1.2
  | Get key => (get key s).1.2
  end.

(** The lines a call printed. *)
Definition output (c : call) (s : LFUCache) : list string :=
  match c with
  | Put key item => (put key item s).2
  | Get key => (get key s).2
  end.

(** Whether a call raised. *)
Definition is_raise {A} (r : outcome A) : bool :=
  match r with Raises _ => true | Returns _ => false end.
Definition raised (c : call) (s : LFUCache) : bool :=
  match c with
  | Put key item => is_raise (put key item s).1.1
  | Get key => is_raise (get key s).1.1
  end.

(** The object after a history of calls (oldest call first) on a newly
    constructed cache. *)
Definition after (history : list call) : LFUCache :=
  foldl (λ s c, step c s) init history.

(** *** The representation invariant *)

(** A bucket of the index: not empty, no key twice, stamps growing along
    the iteration order and all below the counter [c]. *)
Definition bucket_ok (c : nat) (b : bucket K) : Prop :=
  b ≠ [] ∧ NoDup (od_keys b) ∧ StronglySorted stamp_lt b ∧
  Forall (λ e, e.2 < c) b.

(** Key [k] is in bucket [f] of the index [L]. *)
Definition member (L : gmap nat (bucket K)) (f : nat) (k : K) : Prop :=
  ∃ b, L !! f = Some b ∧ k ∈ od_keys b.

(** The three structures agree. *)
Record consistent (s : LFUCache) : Prop := {
  cons_dom : ∀ k, is_Some (cache_data s !! k) ↔ is_Some (frequency s !! k);
  cons_freq : ∀ k f, frequency s !! k = Some f ↔ member (lru s) f k;
  cons_bucket : ∀ f b, lru s !! f = Some b → bucket_ok (lru_counter s) b;
  cons_pos : ∀ k f, frequency s !! k = Some f → 1 ≤ f
}.

Definition wf (s : LFUCache) : Prop :=
  consistent s ∧ size (cache_data s) ≤ MAX_ITEMS.

(** The bucket of a frequency, empty when the index has none. *)
Definition bucket_at (s : LFUCache) (f : nat) : bucket K :=
  default [] (lru s !! f).

(** The stamp of a stored key: its entry in the bucket of its frequency. *)
Definition stamp (s : LFUCache) (k : K) : option nat :=
  f ← frequency s !! k; od_get k (bucket_at s f).

(** *** Closed forms of the three mutations on consistent objects *)

(** The index without key [k] in bucket [f]; the bucket goes when it
    empties. *)
Definition lru_remove (f : nat) (k : K) (L : gmap nat (bucket K)) :
    gmap nat (bucket K) :=
  match filter (λ e, e.1 ≠ k) (default [] (L !! f)) with
  | [] => delete f L
  | e :: b' => <[f := e :: b']> L
  end.

(** The index with [(k, c)] at the end of bucket [f]. *)
Definition lru_append (f : nat) (k : K) (c : nat) (L : gmap nat (bucket K)) :
    gmap nat (bucket K) :=
  <[f := default [] (L !! f) ++ [(k, c)]]> L.

(** The object after the promotion of key [k] from frequency [f]. *)
Definition promoted (k : K) (f : nat) (s : LFUCache) : LFUCache :=
  mkLFUCache (cache_data s) (<[k := f + 1]> (frequency s))
    (lru_append (f + 1) k (lru_counter s) (lru_remove f k (lru s)))
    (lru_counter s + 1).

(** The object after the eviction of key [k] of frequency [f]. *)
Definition evicted (k : K) (f : nat) (s : LFUCache) : LFUCache :=
  mkLFUCache (delete k (cache_data s)) (delete k (frequency s))
    (lru_remove f k (lru s)) (lru_counter s).

(** The object after the insertion of the new key [k]. *)
Definition inserted (k : K) (v : V) (s : LFUCache) : LFUCache :=
  mkLFUCache (<[k := v]> (cache_data s)) (<[k := 1]> (frequency s))
    (lru_append 1 k (lru_counter s) (lru s)) (lru_counter s + 1).
End LFUCache.

(** *** An example run

    The scenario of the specification with string keys, numbers as items
    and room for two keys: [put("A", 1)], [put("B", 2)], [get("A")]. *)
Definition scenario : list (@call string nat) :=
  [Put (Some "A") (Some 1); Put (Some "B") (Some 2); Get (Some "A")].

(** ** Facts on the containers *)

Section ordered_dict_facts.
Context {K : Type} `{EqDecision K}.
Implicit Types (k : K) (c : nat) (b : bucket K).

Lemma od_keys_filter k k' b :
  k' ∈ od_keys (filter (λ e, e.1 ≠ k) b) ↔ k' ∈ od_keys b ∧ k' ≠ k.
Proof.
  unfold od_keys. rewrite !list_elem_of_fmap. split.
  - intros [e [-> [? ?]%list_elem_of_filter]]. eauto.
  - intros [[e [-> ?]] ?]. exists e. split; [done|].
    by apply list_elem_of_filter.
Qed.

Lemma od_keys_filter_NoDup k b :
  NoDup (od_keys b) → NoDup (od_keys (filter (λ e, e.1 ≠ k) b)).
Proof.
  unfold od_keys. induction b as [|[k' c'] b IH]; [done|].
  rewrite fmap_cons, NoDup_cons. intros [Hk' Hb].
  rewrite filter_cons. case_decide; [|by auto].
  rewrite fmap_cons. apply NoDup_cons. split; [|by auto].
  intros Hin. apply Hk'. by apply (od_keys_filter k k' b).
Qed.

Lemma stamp_sorted_filter (P : K * nat → Prop) `{∀ e, Decision (P e)} b :
  StronglySorted stamp_lt b → StronglySorted stamp_lt (filter P b).
Proof.
  induction 1 as [|e b Hb IH Hall]; [constructor|].
  rewrite filter_cons. case_decide; [|done].
  constructor; [done|]. rewrite Forall_forall in Hall |- *.
  intros x [_ ?]%list_elem_of_filter. auto.
Qed.

Lemma od_setitem_fresh k c b :
  k ∉ od_keys b → od_setitem k c b = b ++ [(k, c)].
Proof.
  unfold od_keys. induction b as [|[k' c'] b IH]; simpl; [done|].
  rewrite not_elem_of_cons. intros [Hne Hb].
  case_decide; [congruence|]. by rewrite IH.
Qed.

Lemma od_get_Some k c b :
  NoDup (od_keys b) → od_get k b = Some c ↔ (k, c) ∈ b.
Proof.
  unfold od_keys. induction b as [|[k' c'] b IH]; simpl.
  - intros _. split; [done|]. by intros ?%elem_of_nil.
  - rewrite NoDup_cons. intros [Hk' Hb]. rewrite elem_of_cons.
    case_decide as Hk; subst.
    + split; [by intros [= ->]; left|].
      intros [[= ->]|Hin]; [done|]. destruct Hk'.
      apply list_elem_of_fmap. by exists (k, c).
    + rewrite IH by done. split; [by right|].
      by intros [[= ? ?]|?].
Qed.

Lemma od_get_filter k k' b :
  k' ≠ k → od_get k' (filter (λ e, e.1 ≠ k) b) = od_get k' b.
Proof.
  intros Hne. induction b as [|[k0 c0] b IH]; [done|].
  rewrite filter_cons. simpl. case_decide as Hk0.
  - simpl. by rewrite IH.
  - rewrite IH. rewrite decide_False; [done|]. by intros ->.
Qed.

Lemma od_get_is_Some k b : k ∈ od_keys b → is_Some (od_get k b).
Proof.
  unfold od_keys. induction b as [|[k' c'] b IH]; simpl.
  - by intros ?%elem_of_nil.
  - rewrite elem_of_cons. case_decide; [by eauto|].
    intros [?|?]; [congruence|by auto].
Qed.
End ordered_dict_facts.

Lemma foldr_min_le x xs : foldr Nat.min x xs ≤ x.
Proof. induction xs as [|y xs IH]; simpl; lia. Qed.

Lemma foldr_min_lower x xs y : y ∈ xs → foldr Nat.min x xs ≤ y.
Proof.
  induction xs as [|z xs IH]; simpl; [by intros ?%elem_of_nil|].
  rewrite elem_of_cons. intros [->|Hin]; [lia|].
  specialize (IH Hin). lia.
Qed.

Lemma foldr_min_elem x xs : foldr Nat.min x xs = x ∨ foldr Nat.min x xs ∈ xs.
Proof.
  induction xs as [|z xs IH]; simpl; [by left|].
  destruct (Nat.min_spec z (foldr Nat.min x xs)) as [[_ ->]|[_ ->]].
  - right. by left.
  - destruct IH as [->|?]; [by left|]. right. by right.
Qed.

(** [min] of a non-empty list is one of its members and a lower bound. *)
Lemma py_min_spec xs m :
  py_min xs = Some m → m ∈ xs ∧ ∀ y, y ∈ xs → m ≤ y.
Proof.
  destruct xs as [|x xs]; simpl; [done|]. intros [= <-]. split.
  - destruct (foldr_min_elem x xs) as [->|?]; [by left|by right].
  - intros y [->|Hin]%elem_of_cons;
      [apply foldr_min_le|by apply foldr_min_lower].
Qed.

Lemma py_min_is_Some xs : xs ≠ [] → is_Some (py_min xs).
Proof. destruct xs; [done|]. simpl. eauto. Qed.


(** ** Facts on the index *)

Section index_facts.
Context {K : Type} `{Countable K}.
Implicit Types (k : K) (f c : nat) (L : gmap nat (bucket K)).

Lemma lru_remove_lookup_ne f f' k L :
  f' ≠ f → lru_remove f k L !! f' = L !! f'.
Proof.
  intros Hne. unfold lru_remove.
  destruct (filter _ _); [by rewrite lookup_delete_ne|by rewrite lookup_insert_ne].
Qed.

Lemma lru_remove_lookup_eq f k L :
  lru_remove f k L !! f =
    match filter (λ e, e.1 ≠ k) (default [] (L !! f)) with
    | [] => None
    | e :: b => Some (e :: b)
    end.
Proof.
  unfold lru_remove.
  destruct (filter _ _); [by rewrite lookup_delete_eq|by rewrite lookup_insert_eq].
Qed.

Lemma member_remove f f' k k' L :
  member (lru_remove f k L) f' k' ↔ member L f' k' ∧ ¬ (f' = f ∧ k' = k).
Proof.
  unfold member. destruct (decide (f' = f)) as [->|Hne].
  - rewrite lru_remove_lookup_eq. destruct (L !! f) as [b|] eqn:Hb; simpl.
    + pose proof (od_keys_filter k k' b) as Hf.
      destruct (filter _ b) as [|e b'] eqn:Hfb.
      * split; [by intros (? & [=] & _)|].
        intros [(? & [= <-] & Hin) Hk]. exfalso.
        assert (k' ≠ k) as Hk' by (intros ->; by apply Hk).
        destruct Hf as [_ Hf]. specialize (Hf (conj Hin Hk')).
        by apply elem_of_nil in Hf.
      * split.
        -- intros (? & [= <-] & Hin). apply Hf in Hin as [? ?].
           split; [by eauto|]. by intros [_ ?].
        -- intros [(? & [= <-] & Hin) Hk]. eexists. split; [done|].
           apply Hf. split; [done|]. intros ->. by apply Hk.
    + split; [by intros (? & [=] & _)|by intros [(? & [=] & _) _]].
  - rewrite lru_remove_lookup_ne by done. split; [|by intros [? _]].
    intros Hm. split; [done|]. by intros [? _].
Qed.

Lemma member_append f f' k k' c L :
  member (lru_append f k c L) f' k' ↔ member L f' k' ∨ (f' = f ∧ k' = k).
Proof.
  unfold member, lru_append, od_keys. destruct (decide (f' = f)) as [->|Hne].
  - rewrite lookup_insert_eq. split.
    + intros (? & [= <-] & Hin). rewrite fmap_app, elem_of_app in Hin.
      destruct Hin as [Hin|Hin].
      * left. destruct (L !! f) as [b|]; simpl in *; [by eauto|].
        by apply elem_of_nil in Hin.
      * right. apply list_elem_of_singleton in Hin. done.
    + intros [(b & Hb & Hin)|[_ ->]]; (eexists; split; [done|]);
        rewrite fmap_app, elem_of_app.
      * left. by rewrite Hb.
      * right. by apply list_elem_of_singleton.
  - rewrite lookup_insert_ne by done. split; [by left|].
    by intros [?|[? _]].
Qed.

Lemma buckets_ok_remove f k c L :
  (∀ f' b, L !! f' = Some b → bucket_ok c b) →
  ∀ f' b, lru_remove f k L !! f' = Some b → bucket_ok c b.
Proof.
  intros HL f' b. destruct (decide (f' = f)) as [->|Hne].
  - rewrite lru_remove_lookup_eq. destruct (L !! f) as [b0|] eqn:Hb0; simpl.
    + destruct (HL _ _ Hb0) as (_ & Hnd & Hsort & Hlt).
      destruct (filter _ b0) as [|e b'] eqn:Hfb; [done|].
      intros [= <-]. rewrite <-Hfb. split; [by rewrite Hfb|].
      split; [by apply od_keys_filter_NoDup|].
      split; [by apply stamp_sorted_filter|].
      rewrite Forall_forall in Hlt |- *.
      intros x [_ ?]%list_elem_of_filter. auto.
    + done.
  - rewrite lru_remove_lookup_ne by done. apply HL.
Qed.

Lemma bucket_ok_mono c c' (b : bucket K) :
  c ≤ c' → bucket_ok c b → bucket_ok c' b.
Proof.
  intros Hle (? & ? & ? & Hlt). repeat split; [done..|].
  eapply Forall_impl; [done|]. simpl. lia.
Qed.

Lemma buckets_ok_append f k c L :
  (∀ f' b, L !! f' = Some b → bucket_ok c b) →
  ¬ member L f k →
  ∀ f' b, lru_append f k c L !! f' = Some b → bucket_ok (c + 1) b.
Proof.
  intros HL Hk f' b. unfold lru_append.
  destruct (decide (f' = f)) as [->|Hne].
  - rewrite lookup_insert_eq. intros [= <-].
    destruct (L !! f) as [b0|] eqn:Hb0; simpl.
    + destruct (HL _ _ Hb0) as (_ & Hnd & Hsort & Hlt).
      split; [by destruct b0|]. split; [|split].
      * unfold od_keys. rewrite fmap_app. apply NoDup_app.
        split; [done|]. split; [|apply NoDup_singleton].
        intros x Hx ->%list_elem_of_singleton. apply Hk. by exists b0.
      * apply StronglySorted_app. split; [|split]; [|done|by repeat constructor].
        intros e1 e2 He1 ->%list_elem_of_singleton.
        rewrite Forall_forall in Hlt. by apply Hlt.
      * apply Forall_app. split; [|by repeat constructor; simpl; lia].
        eapply Forall_impl; [done|]. simpl. lia.
    + split; [done|]. split; [apply NoDup_singleton|].
      split; repeat constructor. simpl. lia.
  - rewrite lookup_insert_ne by done. intros Hb.
    eapply bucket_ok_mono; [|by eapply HL]. lia.
Qed.
End index_facts.

(** ** How the method bodies run on consistent objects *)

Section run_facts.
Context {K : Type} `{Countable K} {V : Type}.
Variable MAX_ITEMS : nat.
Variable format : K → string.
Local Abbreviation state := (@LFUCache K _ _ V).
Implicit Types (k : K) (v : V) (f c : nat) (s : state).
Implicit Types (op : @call K V) (history : list (@call K V)).

Local Arguments get : simpl never.
Local Arguments put : simpl never.
Local Arguments evict : simpl never.
Local Arguments lru_bucket_pop : simpl never.
Local Arguments lru_bucket_stamp : simpl never.

Ltac run := unfold mbind, mret, M_bind, M_ret, bind, ret, read, write,
  raise, or_raise, print; simpl.

Lemma lru_bucket_pop_run s f k :
  member (lru s) f k →
  lru_bucket_pop f k s = (Returns tt, set_lru (lru_remove f k) s, []).
Proof.
  intros (b & Hb & Hk). unfold lru_bucket_pop, lru_getitem, lru_store. run.
  rewrite Hb. simpl. unfold od_pop. rewrite decide_True by done. simpl.
  rewrite lookup_insert_eq. unfold set_lru, lru_remove, dict_pop. simpl.
  rewrite Hb. simpl. destruct (filter _ b) as [|e b']; run.
  - rewrite lookup_insert_eq. simpl. by rewrite delete_insert_eq.
  - done.
Qed.

Lemma lru_bucket_stamp_run s f k :
  ¬ member (lru s) f k →
  lru_bucket_stamp f k s =
    (Returns tt,
     mkLFUCache (cache_data s) (frequency s)
       (lru_append f k (lru_counter s) (lru s)) (lru_counter s + 1), []).
Proof.
  intros Hk. unfold lru_bucket_stamp, lru_getitem, lru_store, lru_append. run.
  destruct (lru s !! f) as [b|] eqn:Hb; simpl.
  - rewrite od_setitem_fresh; [done|]. intros ?. apply Hk. by exists b.
  - unfold set_lru. simpl. by rewrite insert_insert_eq.
Qed.

(** [get] on a stored key promotes it and returns its value. *)
Lemma get_run s k v :
  consistent s → cache_data s !! k = Some v →
  ∃ f, frequency s !! k = Some f ∧
    get (Some k) s = (Returns (Some v), promoted k f s, []).
Proof.
  intros Hs Hv.
  destruct (proj1 (cons_dom s Hs k)) as [f Hf]; [by eauto|].
  exists f. split; [done|].
  pose proof (proj1 (cons_freq s Hs k f) Hf) as Hm.
  unfold get, frequency_getitem. run. rewrite Hv, Hf. simpl.
  rewrite Hf. simpl.
  rewrite lru_bucket_pop_run by done. simpl.
  rewrite lru_bucket_stamp_run; [done|]. simpl.
  intros [Hm' _]%member_remove.
  apply (cons_freq s Hs) in Hm'. rewrite Hf in Hm'. injection Hm'. lia.
Qed.

(** *** The mutations keep the three structures in agreement *)

Lemma consistent_init : consistent (init : state).
Proof.
  split; simpl.
  - intros k. rewrite !lookup_empty. done.
  - intros k f. rewrite lookup_empty. split; [done|].
    intros (b & Hb & _). by rewrite lookup_empty in Hb.
  - intros f b. by rewrite lookup_empty.
  - intros k f. by rewrite lookup_empty.
Qed.

Lemma consistent_promoted s k f :
  consistent s → frequency s !! k = Some f → consistent (promoted k f s).
Proof.
  intros Hs Hf. split; simpl.
  - intros k'. destruct (decide (k' = k)) as [->|Hne].
    + rewrite lookup_insert_eq. rewrite (cons_dom s Hs), Hf. done.
    + rewrite lookup_insert_ne by done. apply (cons_dom s Hs).
  - intros k' f'. rewrite member_append, member_remove.
    rewrite <-(cons_freq s Hs). destruct (decide (k' = k)) as [->|Hne].
    + rewrite lookup_insert_eq, Hf. split.
      * intros [= <-]. by right.
      * intros [[[= ->] Hn]|[-> _]]; [|done]. by destruct Hn.
    + rewrite lookup_insert_ne by done. split.
      * intros Hf'. left. split; [done|]. by intros [_ ?].
      * by intros [[? _]|[_ ?]].
  - apply buckets_ok_append.
    + apply buckets_ok_remove, (cons_bucket s Hs).
    + intros [Hm _]%member_remove. apply (cons_freq s Hs) in Hm.
      rewrite Hf in Hm. injection Hm. lia.
  - intros k' f'. destruct (decide (k' = k)) as [->|Hne].
    + rewrite lookup_insert_eq. intros [= <-]. lia.
    + rewrite lookup_insert_ne by done. apply (cons_pos s Hs).
Qed.

Lemma consistent_evicted s k f :
  consistent s → frequency s !! k = Some f → consistent (evicted k f s).
Proof.
  intros Hs Hf. split; simpl.
  - intros k'. destruct (decide (k' = k)) as [->|Hne].
    + rewrite !lookup_delete_eq. done.
    + rewrite !lookup_delete_ne by done. apply (cons_dom s Hs).
  - intros k' f'. rewrite member_remove, <-(cons_freq s Hs).
    destruct (decide (k' = k)) as [->|Hne].
    + rewrite lookup_delete_eq, Hf. split; [done|].
      intros [[= ->] Hn]. by destruct Hn.
    + rewrite lookup_delete_ne by done. split; [|by intros [? _]].
      intros Hf'. split; [done|]. by intros [_ ?].
  - apply buckets_ok_remove, (cons_bucket s Hs).
  - intros k' f'. destruct (decide (k' = k)) as [->|Hne].
    + by rewrite lookup_delete_eq.
    + rewrite lookup_delete_ne by done. apply (cons_pos s Hs).
Qed.

Lemma not_member_new s k f :
  consistent s → cache_data s !! k = None → ¬ member (lru s) f k.
Proof.
  intros Hs Hk Hm. apply (cons_freq s Hs) in Hm.
  assert (is_Some (cache_data s !! k)) as [? ?]
    by (apply (cons_dom s Hs); eauto). congruence.
Qed.

Lemma consistent_inserted s k v :
  consistent s → cache_data s !! k = None → consistent (inserted k v s).
Proof.
  intros Hs Hk. split; simpl.
  - intros k'. destruct (decide (k' = k)) as [->|Hne].
    + rewrite !lookup_insert_eq. split; eauto.
    + rewrite !lookup_insert_ne by done. apply (cons_dom s Hs).
  - intros k' f'. rewrite member_append, <-(cons_freq s Hs).
    destruct (decide (k' = k)) as [->|Hne].
    + rewrite lookup_insert_eq. split; [intros [= <-]; by right|].
      intros [Hf|[-> _]]; [|done]. exfalso.
      eapply (not_member_new s k f'); [done..|]. by apply (cons_freq s Hs).
    + rewrite lookup_insert_ne by done. split; [by left|].
      by intros [?|[_ ?]].
  - apply buckets_ok_append; [apply (cons_bucket s Hs)|].
    by apply not_member_new.
  - intros k' f'. destruct (decide (k' = k)) as [->|Hne].
    + rewrite lookup_insert_eq. intros [= <-]. lia.
    + rewrite lookup_insert_ne by done. apply (cons_pos s Hs).
Qed.

Lemma consistent_set_value s k v :
  consistent s → is_Some (cache_data s !! k) →
  consistent (set_cache_data <[k := v]> s).
Proof.
  intros Hs Hk. split; simpl; [|apply Hs..].
  intros k'. destruct (decide (k' = k)) as [->|Hne].
  - rewrite lookup_insert_eq. rewrite <-(cons_dom s Hs). split; eauto.
  - rewrite lookup_insert_ne by done. apply (cons_dom s Hs).
Qed.

(** *** The eviction branch and [put] *)

(** On a consistent object with at least one key the eviction branch
    returns: it removes the first key of the bucket of the least frequency
    and prints one line naming it. *)
Lemma evict_run s :
  consistent s → frequency s ≠ ∅ →
  ∃ victim fmin cv rest,
    py_min (map_to_list (frequency s)).*2 = Some fmin ∧
    frequency s !! victim = Some fmin ∧
    (∀ k' f', frequency s !! k' = Some f' → fmin ≤ f') ∧
    lru s !! fmin = Some ((victim, cv) :: rest) ∧
    evict format s =
      (Returns tt, evicted victim fmin s, ["DISCARD: " +:+ format victim]).
Proof.
  intros Hs Hne.
  destruct (py_min_is_Some (map_to_list (frequency s)).*2) as [m Hm].
  { intros Hnil%fmap_nil_inv. by apply map_to_list_empty_iff in Hnil. }
  destruct (py_min_spec _ _ Hm) as [Hin Hlow].
  apply list_elem_of_fmap in Hin as [[k0 m'] [-> Hk0%elem_of_map_to_list]].
  simpl in *.
  destruct (proj1 (cons_freq s Hs k0 m') Hk0) as (b & Hb & Hk0b).
  destruct b as [|[victim cv] rest]; [by apply elem_of_nil in Hk0b|].
  assert (member (lru s) m' victim) as Hmem.
  { exists ((victim, cv) :: rest). split; [done|]. by left. }
  pose proof (proj2 (cons_freq s Hs victim m') Hmem) as Hfv.
  destruct (proj2 (cons_dom s Hs victim)) as [v Hv]; [by eauto|].
  exists victim, m', cv, rest. split; [done|]. split; [done|]. split.
  { intros k' f' Hk'. apply Hlow. apply list_elem_of_fmap.
    exists (k', f'). split; [done|]. by apply elem_of_map_to_list. }
  split; [done|].
  unfold evict, lru_getitem, dict_pop. run. rewrite Hm. simpl.
  rewrite Hb. simpl. rewrite Hv. simpl. rewrite Hfv. simpl.
  rewrite lru_bucket_pop_run by done. done.
Qed.

Lemma put_existing_run s k v v0 :
  consistent s → cache_data s !! k = Some v0 →
  ∃ f, frequency s !! k = Some f ∧
    put MAX_ITEMS format (Some k) (Some v) s =
      (Returns tt, promoted k f (set_cache_data <[k := v]> s), []).
Proof.
  intros Hs Hv0.
  destruct (get_run (set_cache_data <[k := v]> s) k v) as (f & Hf & Hget).
  { apply consistent_set_value; eauto. }
  { simpl. by rewrite lookup_insert_eq. }
  exists f. split; [done|]. unfold put. run.
  rewrite decide_True by eauto. simpl.
  rewrite Hget. done.
Qed.

Lemma put_new_room_run s k v :
  consistent s → cache_data s !! k = None →
  size (cache_data s) < MAX_ITEMS →
  put MAX_ITEMS format (Some k) (Some v) s = (Returns tt, inserted k v s, []).
Proof.
  intros Hs Hk Hsz. unfold put. run.
  rewrite decide_False by (rewrite Hk; by intros [? ?]). simpl.
  rewrite decide_False by lia. simpl.
  rewrite lru_bucket_stamp_run; [done|]. simpl.
  by apply not_member_new.
Qed.

Lemma put_new_full_run s k v :
  consistent s → cache_data s !! k = None →
  MAX_ITEMS ≤ size (cache_data s) → frequency s ≠ ∅ →
  ∃ victim fmin cv rest,
    frequency s !! victim = Some fmin ∧
    (∀ k' f', frequency s !! k' = Some f' → fmin ≤ f') ∧
    lru s !! fmin = Some ((victim, cv) :: rest) ∧
    put MAX_ITEMS format (Some k) (Some v) s =
      (Returns tt, inserted k v (evicted victim fmin s),
       ["DISCARD: " +:+ format victim]).
Proof.
  intros Hs Hk Hsz Hne.
  destruct (evict_run s Hs Hne)
    as (victim & fmin & cv & rest & _ & Hf & Hmin & Hb & Hev).
  exists victim, fmin, cv, rest. do 3 (split; [done|]).
  unfold put. run.
  rewrite decide_False by (rewrite Hk; by intros [? ?]). simpl.
  rewrite decide_True by lia. simpl. rewrite Hev. simpl.
  rewrite lru_bucket_stamp_run; [done|]. simpl.
  apply (not_member_new (evicted victim fmin s)).
  - by apply consistent_evicted.
  - simpl. rewrite lookup_delete_None. by right.
Qed.

(** With no key stored the eviction branch raises on [min] of nothing,
    before it has changed anything. *)
Lemma put_new_empty_run s k v :
  cache_data s !! k = None → MAX_ITEMS ≤ size (cache_data s) →
  frequency s = ∅ →
  put MAX_ITEMS format (Some k) (Some v) s = (Raises ValueError, s, []).
Proof.
  intros Hk Hsz He. unfold put. run.
  rewrite decide_False by (rewrite Hk; by intros [? ?]). simpl.
  rewrite decide_True by lia. simpl. unfold evict. run.
  rewrite He, map_to_list_empty. done.
Qed.

Lemma put_null_run s (key : option K) (item : option V) :
  key = None ∨ item = None →
  put MAX_ITEMS format key item s = (Returns tt, s, []).
Proof. intros [-> | ->]; [done|]. by destruct key. Qed.

Lemma get_null_run s : get None s = (Returns None, s, []).
Proof. done. Qed.

Lemma get_miss_run s k :
  cache_data s !! k = None → get (Some k) s = (Returns None, s, []).
Proof. intros Hk. unfold get. run. by rewrite Hk. Qed.

(** *** Every reachable object is well formed *)

Lemma frequency_empty_size s :
  consistent s → frequency s = ∅ → size (cache_data s) = 0.
Proof.
  intros Hs He. apply map_size_empty_iff, map_empty. intros k.
  apply eq_None_not_Some. rewrite (cons_dom s Hs), He, lookup_empty.
  by intros [? ?].
Qed.

(** The four ways [put] with a key and an item can go on a well-formed
    object. *)
Lemma put_cases s k v :
  wf MAX_ITEMS s →
  (∃ v0 f, cache_data s !! k = Some v0 ∧ frequency s !! k = Some f ∧
     put MAX_ITEMS format (Some k) (Some v) s =
       (Returns tt, promoted k f (set_cache_data <[k := v]> s), [])) ∨
  (cache_data s !! k = None ∧ size (cache_data s) < MAX_ITEMS ∧
     put MAX_ITEMS format (Some k) (Some v) s =
       (Returns tt, inserted k v s, [])) ∨
  (cache_data s !! k = None ∧ size (cache_data s) = MAX_ITEMS ∧
     0 < MAX_ITEMS ∧
     ∃ victim fmin cv rest,
       frequency s !! victim = Some fmin ∧
       (∀ k' f', frequency s !! k' = Some f' → fmin ≤ f') ∧
       lru s !! fmin = Some ((victim, cv) :: rest) ∧
       put MAX_ITEMS format (Some k) (Some v) s =
         (Returns tt, inserted k v (evicted victim fmin s),
          ["DISCARD: " +:+ format victim])) ∨
  (cache_data s !! k = None ∧ MAX_ITEMS = 0 ∧
     put MAX_ITEMS format (Some k) (Some v) s = (Raises ValueError, s, [])).
Proof.
  intros [Hs Hsz]. destruct (cache_data s !! k) as [v0|] eqn:Hk.
  - left. destruct (put_existing_run s k v v0 Hs Hk) as (f & ? & ?). eauto.
  - right. destruct (decide (size (cache_data s) < MAX_ITEMS)) as [Hlt|Hge].
    { left. by rewrite put_new_room_run. }
    right. destruct (decide (frequency s = ∅)) as [He|Hne].
    + right. pose proof (frequency_empty_size s Hs He).
      rewrite put_new_empty_run by (done || lia). split; [done|].
      split; [lia|done].
    + left. split; [done|]. split; [lia|].
      assert (size (cache_data s) ≠ 0) as Hnz.
      { intros Hz%map_size_empty_iff. apply Hne, map_empty. intros k'.
        apply eq_None_not_Some. rewrite <-(cons_dom s Hs), Hz, lookup_empty.
        by intros [? ?]. }
      split; [lia|]. apply put_new_full_run; (done || lia).
Qed.

Lemma wf_promoted s k f :
  wf MAX_ITEMS s → frequency s !! k = Some f → wf MAX_ITEMS (promoted k f s).
Proof. intros [Hs Hsz] Hf. split; [by apply consistent_promoted|done]. Qed.

Lemma wf_step (op : call) s :
  wf MAX_ITEMS s → wf MAX_ITEMS (step MAX_ITEMS format op s).
Proof.
  intros Hwf. destruct op as [[k|] [v|]|[k|]]; simpl;
    rewrite ?put_null_run, ?get_null_run by auto; try done.
  - destruct (put_cases s k v Hwf)
      as [(v0 & f & Hk & Hf & ->)|[(Hk & Hsz & ->)|
          [(Hk & Hsz & Hpos & victim & fmin & cv & rest & Hf & _ & _ & ->)|
           (_ & _ & ->)]]]; simpl; [| | |done].
    + destruct Hwf as [Hs Hsz]. split.
      * apply consistent_promoted; [|done].
        apply consistent_set_value; eauto.
      * simpl. rewrite map_size_insert_Some by eauto. done.
    + destruct Hwf as [Hs _]. split; [by apply consistent_inserted|].
      simpl. rewrite map_size_insert_None by done. lia.
    + destruct Hwf as [Hs _]. split.
      * apply consistent_inserted; [by apply consistent_evicted|].
        simpl. rewrite lookup_delete_None. by right.
      * simpl. rewrite map_size_insert_None
          by (rewrite lookup_delete_None; by right).
        destruct (proj2 (cons_dom s Hs victim)) as [vv Hvv]; [by eauto|].
        rewrite map_size_delete_Some by eauto. lia.
  - destruct (cache_data s !! k) as [v|] eqn:Hk.
    + destruct (get_run s k v (proj1 Hwf) Hk) as (f & Hf & ->). simpl.
      by apply wf_promoted.
    + by rewrite get_miss_run.
Qed.

Lemma after_snoc history (op : call) :
  after MAX_ITEMS format (history ++ [op]) =
    step MAX_ITEMS format op (after MAX_ITEMS format history).
Proof. unfold after. by rewrite foldl_app. Qed.

Lemma wf_after history : wf MAX_ITEMS (after MAX_ITEMS format history).
Proof.
  induction history as [|op history IH] using rev_ind.
  - split; [apply consistent_init|]. simpl. rewrite map_size_empty. lia.
  - rewrite after_snoc. by apply wf_step.
Qed.
End run_facts.

(** ** Properties of the cache *)

Section properties.
Context {K : Type} `{Countable K} {V : Type}.
Variable MAX_ITEMS : nat.
Variable format : K → string.
Local Abbreviation state := (@LFUCache K _ _ V).
Implicit Types (k : K) (v : V) (f c : nat) (s : state).
Implicit Types (op : @call K V) (history : list (@call K V)).

Local Arguments get : simpl never.
Local Arguments put : simpl never.

Lemma bucket_at_member s f k : k ∈ od_keys (bucket_at s f) ↔ member (lru s) f k.
Proof.
  unfold bucket_at, member. destruct (lru s !! f) as [b|]; simpl.
  - split; [by eauto|]. by intros (? & [= <-] & ?).
  - split; [by intros ?%elem_of_nil|]. by intros (? & [=] & _).
Qed.

Lemma filter_key_once k (b : bucket K) :
  NoDup (od_keys b) → k ∈ od_keys b →
  length (filter (λ e, e.1 = k) b) = 1.
Proof.
  unfold od_keys. induction b as [|[k' c'] b IH]; [by intros _ ?%elem_of_nil|].
  rewrite fmap_cons, NoDup_cons, elem_of_cons, filter_cons. simpl.
  intros [Hk' Hb] Hin. case_decide as Hk; subst.
  - simpl. f_equal. apply length_zero_iff_nil.
    destruct (filter _ b) as [|e b'] eqn:Hfb; [done|]. exfalso.
    assert (e ∈ filter (λ e, e.1 = k) b) as [He ?]%list_elem_of_filter
      by (rewrite Hfb; by left).
    apply Hk'. apply list_elem_of_fmap. by exists e.
  - apply IH; [done|]. by destruct Hin.
Qed.

(** C2: after any sequence of [put] and [get] calls on a newly constructed
    cache, the value store holds at most [MAX_ITEMS] keys. *)
Theorem capacity_invariant history :
  size (cache_data (after MAX_ITEMS format history)) ≤ MAX_ITEMS.
Proof. apply wf_after. Qed.

(** C5: after any sequence of calls, every stored key has an entry in the
    frequency map and sits, once, in the bucket of that frequency and in
    no other bucket; no bucket of the index is empty. *)
Theorem frequency_index_invariant history :
  let s := after MAX_ITEMS format history in
  (∀ k, is_Some (cache_data s !! k) →
     ∃ f, frequency s !! k = Some f ∧
       (∀ f', k ∈ od_keys (bucket_at s f') ↔ f' = f) ∧
       length (filter (λ e, e.1 = k) (bucket_at s f)) = 1) ∧
  (∀ f b, lru s !! f = Some b → b ≠ []).
Proof.
  intros s. destruct (wf_after MAX_ITEMS format history) as [Hs _].
  fold s in Hs. split.
  - intros k [f Hf]%(cons_dom s Hs). exists f. split; [done|].
    pose proof (proj1 (cons_freq s Hs k f) Hf) as (b & Hb & Hin).
    split.
    + intros f'. rewrite bucket_at_member, <-(cons_freq s Hs), Hf.
      split; [by intros [= ->]|by intros ->].
    + unfold bucket_at. rewrite Hb. simpl.
      apply filter_key_once; [|done]. by apply (cons_bucket s Hs f b Hb).
  - intros f b Hb. by apply (cons_bucket s Hs f b Hb).
Qed.

(** C6: [put(None, v)], [put(k, None)] and [get(None)] return without
    raising, print nothing and leave every field of the object as it was;
    [get(None)] returns [None]. *)
Theorem null_arguments_are_noops s (key : option K) (item : option V) :
  put MAX_ITEMS format None item s = (Returns tt, s, []) ∧
  put MAX_ITEMS format key None s = (Returns tt, s, []) ∧
  get None s = (Returns None, s, []).
Proof.
  split; [|split].
  - apply put_null_run. by left.
  - apply put_null_run. by right.
  - apply get_null_run.
Qed.

(** C9: a call either removes no key from the store and prints nothing, or
    removes exactly one key and prints exactly one line, the one naming
    that key. *)
Theorem eviction_notification history op :
  let s := after MAX_ITEMS format history in
  let s' := step MAX_ITEMS format op s in
  (output MAX_ITEMS format op s = [] ∧
   ∀ k, is_Some (cache_data s !! k) → is_Some (cache_data s' !! k)) ∨
  (∃ victim,
     output MAX_ITEMS format op s = ["DISCARD: " +:+ format victim] ∧
     is_Some (cache_data s !! victim) ∧ cache_data s' !! victim = None ∧
     ∀ k, k ≠ victim → is_Some (cache_data s !! k) →
       is_Some (cache_data s' !! k)).
Proof.
  intros s s'. pose proof (wf_after MAX_ITEMS format history) as Hwf.
  fold s in Hwf. subst s'. destruct op as [[k|] [v|]|[k|]]; simpl;
    rewrite ?put_null_run, ?get_null_run by auto; try (by left).
  - destruct (put_cases MAX_ITEMS format s k v Hwf)
      as [(v0 & f & Hk & Hf & ->)|[(Hk & Hsz & ->)|
          [(Hk & Hsz & Hpos & victim & fmin & cv & rest & Hf & _ & _ & ->)|
           (_ & _ & ->)]]]; simpl.
    + left. split; [done|]. intros k' Hk'.
      destruct (decide (k' = k)) as [->|Hne];
        [rewrite lookup_insert_eq; eauto|by rewrite lookup_insert_ne].
    + left. split; [done|]. intros k' Hk'.
      destruct (decide (k' = k)) as [->|Hne];
        [rewrite lookup_insert_eq; eauto|by rewrite lookup_insert_ne].
    + right. exists victim. split; [done|].
      destruct Hwf as [Hs _].
      assert (is_Some (cache_data s !! victim)) as Hv
        by (apply (cons_dom s Hs); eauto).
      assert (victim ≠ k) as Hvk.
      { intros ->. rewrite Hk in Hv. by destruct Hv. }
      split; [done|]. split.
      * by rewrite lookup_insert_ne, lookup_delete_eq.
      * intros k' Hne Hk'. destruct (decide (k' = k)) as [->|Hne'];
          [rewrite lookup_insert_eq; eauto|].
        by rewrite lookup_insert_ne, lookup_delete_ne.
    + by left.
  - destruct (cache_data s !! k) as [v|] eqn:Hk.
    + destruct (get_run s k v (proj1 Hwf) Hk) as (f & Hf & ->). by left.
    + rewrite get_miss_run by done. by left.
Qed.

Lemma bucket_at_remove f f' k (L : gmap nat (bucket K)) :
  default [] (lru_remove f k L !! f') =
    if decide (f' = f) then filter (λ e, e.1 ≠ k) (default [] (L !! f))
    else default [] (L !! f').
Proof.
  case_decide as Hf; subst.
  - rewrite lru_remove_lookup_eq. by destruct (filter _ _).
  - by rewrite lru_remove_lookup_ne.
Qed.

Lemma bucket_at_append f f' k c (L : gmap nat (bucket K)) :
  default [] (lru_append f k c L !! f') =
    if decide (f' = f) then default [] (L !! f) ++ [(k, c)]
    else default [] (L !! f').
Proof.
  unfold lru_append. case_decide as Hf; subst.
  - by rewrite lookup_insert_eq.
  - by rewrite lookup_insert_ne.
Qed.

(** In a well-kept bucket every key behind the first carries a larger
    stamp than the first. *)
Lemma first_is_oldest k0 c0 k (rest : bucket K) :
  NoDup (od_keys ((k0, c0) :: rest)) →
  StronglySorted stamp_lt ((k0, c0) :: rest) →
  k ≠ k0 → k ∈ od_keys ((k0, c0) :: rest) →
  ∃ c, od_get k ((k0, c0) :: rest) = Some c ∧ c0 < c.
Proof.
  intros Hnd Hsort Hne Hin.
  destruct (od_get_is_Some k _ Hin) as [c Hc]. exists c. split; [done|].
  apply od_get_Some in Hc; [|done].
  apply elem_of_cons in Hc as [[= ? ?]|Hc]; [done|].
  apply StronglySorted_cons in Hsort as [Hall _].
  rewrite Forall_forall in Hall. by apply (Hall (k, c)).
Qed.

(** C1: when [put] is called with a new key and an item on a cache that
    holds [MAX_ITEMS] keys, exactly one stored key is removed; its
    frequency is the least one among the stored keys, and every other
    stored key of that frequency carries a larger stamp: the removed key
    is the first, and oldest, member of the bucket of the least
    frequency. *)
Theorem put_evicts_least_frequent_oldest history k v :
  let s := after MAX_ITEMS format history in
  let s' := step MAX_ITEMS format (Put (Some k) (Some v)) s in
  0 < MAX_ITEMS →
  cache_data s !! k = None →
  size (cache_data s) = MAX_ITEMS →
  ∃ victim fmin cv,
    is_Some (cache_data s !! victim) ∧
    cache_data s' !! victim = None ∧
    (∀ k', k' ≠ victim → k' ≠ k → cache_data s' !! k' = cache_data s !! k') ∧
    frequency s !! victim = Some fmin ∧
    (∀ k', is_Some (cache_data s !! k') →
       ∃ f', frequency s !! k' = Some f' ∧ fmin ≤ f') ∧
    od_first (bucket_at s fmin) = Some victim ∧
    stamp s victim = Some cv ∧
    (∀ k', k' ≠ victim → frequency s !! k' = Some fmin →
       ∃ c', stamp s k' = Some c' ∧ cv < c').
Proof.
  intros s s' Hpos Hk Hsz.
  pose proof (wf_after MAX_ITEMS format history) as Hwf. fold s in Hwf.
  subst s'. simpl.
  destruct (put_cases MAX_ITEMS format s k v Hwf)
    as [(v0 & f & Hk' & _)|[(_ & Hlt & _)|
        [(_ & _ & _ & victim & fmin & cv & rest & Hf & Hmin & Hb & ->)|
         (_ & Hz & _)]]]; [congruence|lia| |lia].
  destruct Hwf as [Hs _]. simpl.
  assert (is_Some (cache_data s !! victim)) as Hv
    by (apply (cons_dom s Hs); eauto).
  assert (victim ≠ k) as Hvk.
  { intros ->. rewrite Hk in Hv. by destruct Hv. }
  destruct (cons_bucket s Hs fmin _ Hb) as (_ & Hnd & Hsort & _).
  exists victim, fmin, cv. split; [done|]. split.
  { by rewrite lookup_insert_ne, lookup_delete_eq. }
  split.
  { intros k' ? ?. by rewrite lookup_insert_ne, lookup_delete_ne. }
  split; [done|]. split.
  { intros k' [f' Hf']%(cons_dom s Hs). eauto. }
  split.
  { unfold bucket_at. by rewrite Hb. }
  split.
  { unfold stamp, bucket_at. rewrite Hf. simpl. rewrite Hb. simpl.
    by rewrite decide_True. }
  intros k' Hne Hf'. unfold stamp, bucket_at. rewrite Hf'. simpl.
  rewrite Hb. simpl.
  apply (first_is_oldest victim cv k' rest); [done..|].
  apply (cons_freq s Hs) in Hf' as (b & Hb' & Hin). congruence.
Qed.

Lemma filter_other_snoc k c (b : bucket K) :
  filter (λ e, e.1 ≠ k) (b ++ [(k, c)]) = filter (λ e, e.1 ≠ k) b.
Proof.
  rewrite filter_app, filter_cons, decide_False by (simpl; auto).
  by rewrite filter_nil, app_nil_r.
Qed.

Lemma filter_other_twice k (b : bucket K) :
  filter (λ e, e.1 ≠ k) (filter (λ e, e.1 ≠ k) b) = filter (λ e, e.1 ≠ k) b.
Proof.
  induction b as [|e b IH]; [done|]. rewrite filter_cons.
  case_decide; [|done]. rewrite filter_cons, decide_True by done.
  by rewrite IH.
Qed.

(** The buckets of a promoted object. *)
Lemma bucket_at_promoted s k f f' :
  bucket_at (promoted k f s) f' =
    if decide (f' = f + 1) then bucket_at s (f + 1) ++ [(k, lru_counter s)]
    else if decide (f' = f) then filter (λ e, e.1 ≠ k) (bucket_at s f)
    else bucket_at s f'.
Proof.
  unfold bucket_at. simpl. rewrite bucket_at_append.
  case_decide as Hf1; subst.
  - rewrite bucket_at_remove, decide_False by lia. done.
  - by rewrite bucket_at_remove.
Qed.

(** C3: [get] of a stored key returns its value; the key leaves the bucket
    of its frequency (the bucket leaves the index when that empties it),
    its frequency grows by one, and it enters the bucket of the new
    frequency at the end, with the counter as a stamp above all stamps
    there; the counter grows by one.  [get] of a key that is not stored,
    or of [None], returns [None] and changes nothing. *)
Theorem get_promotes history (key : option K) :
  let s := after MAX_ITEMS format history in
  (∀ k v, key = Some k → cache_data s !! k = Some v →
     ∃ f s',
       get key s = (Returns (Some v), s', []) ∧
       frequency s !! k = Some f ∧
       frequency s' !! k = Some (f + 1) ∧
       bucket_at s' f = filter (λ e, e.1 ≠ k) (bucket_at s f) ∧
       (k ∉ od_keys (bucket_at s' f)) ∧
       (bucket_at s' f = [] → lru s' !! f = None) ∧
       bucket_at s' (f + 1) = bucket_at s (f + 1) ++ [(k, lru_counter s)] ∧
       Forall (λ e, e.2 < lru_counter s) (bucket_at s (f + 1)) ∧
       lru_counter s' = lru_counter s + 1) ∧
  ((key = None ∨ ∃ k, key = Some k ∧ cache_data s !! k = None) →
     get key s = (Returns None, s, [])).
Proof.
  intros s. destruct (wf_after MAX_ITEMS format history) as [Hs _].
  fold s in Hs. split.
  - intros k v -> Hv. destruct (get_run s k v Hs Hv) as (f & Hf & Hget).
    exists f, (promoted k f s). split; [done|]. split; [done|].
    split; [by simpl; rewrite lookup_insert_eq|].
    assert (bucket_at (promoted k f s) f =
            filter (λ e, e.1 ≠ k) (bucket_at s f)) as Hbf.
    { rewrite bucket_at_promoted, decide_False by lia.
      by rewrite decide_True. }
    split; [done|]. split.
    { rewrite Hbf, od_keys_filter. by intros [_ ?]. }
    split.
    { rewrite Hbf. unfold bucket_at, promoted, lru_append. simpl.
      intros Hnil. rewrite lookup_insert_ne by lia.
      rewrite lru_remove_lookup_eq. by rewrite Hnil. }
    split; [by rewrite bucket_at_promoted, decide_True|].
    split; [|done].
    unfold bucket_at. destruct (lru s !! (f + 1)) as [b|] eqn:Hb; simpl;
      [|constructor].
    by apply (cons_bucket s Hs _ _ Hb).
  - intros [->|(k & -> & Hk)]; [done|]. by apply get_miss_run.
Qed.

(** C4: [put] of a stored key with an item replaces the value, promotes
    the key exactly as [get] does (its frequency grows by one), prints
    nothing, and leaves the set and the number of the stored keys as they
    were, whatever the number of stored keys. *)
Theorem put_overwrites history k v v0 :
  let s := after MAX_ITEMS format history in
  let s' := step MAX_ITEMS format (Put (Some k) (Some v)) s in
  let sg := step MAX_ITEMS format (Get (Some k)) s in
  cache_data s !! k = Some v0 →
  ∃ f,
    put MAX_ITEMS format (Some k) (Some v) s = (Returns tt, s', []) ∧
    cache_data s' = <[k := v]> (cache_data s) ∧
    frequency s !! k = Some f ∧
    frequency s' !! k = Some (f + 1) ∧
    (frequency s' = frequency sg ∧ lru s' = lru sg ∧
     lru_counter s' = lru_counter sg) ∧
    size (cache_data s') = size (cache_data s) ∧
    dom (cache_data s') = dom (cache_data s).
Proof.
  intros s s' sg Hv0.
  destruct (wf_after MAX_ITEMS format history) as [Hs _]. fold s in Hs.
  destruct (put_existing_run MAX_ITEMS format s k v v0 Hs Hv0)
    as (f & Hf & Hput).
  destruct (get_run s k v0 Hs Hv0) as (f' & Hf' & Hget).
  assert (f' = f) as -> by congruence.
  subst s' sg. simpl. rewrite Hput, Hget. simpl.
  exists f. split; [done|]. split; [done|]. split; [done|].
  split; [by rewrite lookup_insert_eq|]. split; [done|].
  split; [rewrite map_size_insert_Some; eauto|].
  apply set_eq. intros k'. rewrite !elem_of_dom.
  destruct (decide (k' = k)) as [->|Hne].
  - rewrite lookup_insert_eq, Hv0. split; eauto.
  - by rewrite lookup_insert_ne.
Qed.

(** C7: over a single call, the frequency of a key that is stored before
    and after the call does not decrease; and a frequency that becomes 1
    belongs to a key that was not stored and that the call, a [put] of
    that key with an item, has just inserted. *)
Theorem frequency_monotone history op k :
  let s := after MAX_ITEMS format history in
  let s' := step MAX_ITEMS format op s in
  (is_Some (cache_data s !! k) → is_Some (cache_data s' !! k) →
     ∃ f f', frequency s !! k = Some f ∧ frequency s' !! k = Some f' ∧
       f ≤ f') ∧
  (frequency s' !! k = Some 1 → frequency s !! k ≠ Some 1 →
     cache_data s !! k = None ∧ ∃ v, op = Put (Some k) (Some v)).
Proof.
  intros s s'. pose proof (wf_after MAX_ITEMS format history) as Hwf.
  fold s in Hwf. pose proof Hwf as [Hs _].
  assert (is_Some (cache_data s !! k) →
          ∃ f, frequency s !! k = Some f ∧ f ≤ f) as Hsame.
  { intros [f Hf]%(cons_dom s Hs). eauto. }
  assert (∀ k0 f0, frequency s !! k0 = Some f0 →
    (is_Some (cache_data s !! k) →
       ∃ f f', frequency s !! k = Some f ∧
         <[k0 := f0 + 1]> (frequency s) !! k = Some f' ∧ f ≤ f') ∧
    (<[k0 := f0 + 1]> (frequency s) !! k = Some 1 →
       frequency s !! k ≠ Some 1 →
       cache_data s !! k = None ∧ ∃ v, op = Put (Some k) (Some v)))
    as Hprom.
  { intros k0 f0 Hf0. destruct (decide (k = k0)) as [->|Hne].
    - rewrite lookup_insert_eq. split.
      + intros _. exists f0, (f0 + 1). split; [done|]. split; [done|lia].
      + intros [= Hz]. apply (cons_pos s Hs) in Hf0. lia.
    - rewrite lookup_insert_ne by done. split; [|done].
      intros (f & Hf & _)%Hsame. eauto. }
  subst s'. destruct op as [[k0|] [v|]|[k0|]]; simpl;
    rewrite ?put_null_run, ?get_null_run by auto;
    try (split; [intros (f & Hf & _)%Hsame _; by eauto|done]).
  - destruct (put_cases MAX_ITEMS format s k0 v Hwf)
      as [(v0 & f & Hk & Hf & ->)|[(Hk & Hsz & ->)|
          [(Hk & Hsz & Hpos & victim & fmin & cv & rest & Hf & _ & _ & ->)|
           (_ & _ & ->)]]]; simpl.
    + destruct (Hprom k0 f Hf) as [H1 H2]. split; [by auto|done].
    + destruct (decide (k = k0)) as [->|Hne].
      * rewrite lookup_insert_eq. split; [rewrite Hk; by intros [? ?]|].
        intros _ _. eauto.
      * rewrite !lookup_insert_ne by done. split; [|done].
        intros (f & Hf & _)%Hsame _. eauto.
    + destruct (decide (k = k0)) as [->|Hne].
      * rewrite lookup_insert_eq. split; [rewrite Hk; by intros [? ?]|].
        intros _ _. eauto.
      * rewrite !lookup_insert_ne by done.
        destruct (decide (k = victim)) as [->|Hnv].
        -- rewrite !lookup_delete_eq. split; [by intros _ [? ?]|done].
        -- rewrite !lookup_delete_ne by done. split; [|done].
           intros (f & Hf' & _)%Hsame _. eauto.
    + split; [intros (f & Hf & _)%Hsame _; by eauto|done].
  - destruct (cache_data s !! k0) as [v|] eqn:Hk.
    + destruct (get_run s k0 v Hs Hk) as (f & Hf & ->). simpl.
      destruct (Hprom k0 f Hf) as [H1 H2]. split; [by auto|done].
    + rewrite get_miss_run by done. simpl.
      split; [intros (f & Hf & _)%Hsame _; by eauto|done].
Qed.

(** C8: with a positive [MAX_ITEMS], no call on a reachable object raises,
    whatever its arguments; and whenever the eviction branch is entered,
    [min] is taken of at least one frequency and the bucket of that least
    frequency has a first key. *)
Theorem calls_never_raise history op :
  let s := after MAX_ITEMS format history in
  0 < MAX_ITEMS →
  raised MAX_ITEMS format op s = false ∧
  (MAX_ITEMS ≤ size (cache_data s) →
     ∃ m, py_min (map_to_list (frequency s)).*2 = Some m ∧
       is_Some (od_first (bucket_at s m))).
Proof.
  intros s Hpos. pose proof (wf_after MAX_ITEMS format history) as Hwf.
  fold s in Hwf. split.
  - destruct op as [[k0|] [v|]|[k0|]]; simpl;
      rewrite ?put_null_run, ?get_null_run by auto; try done.
    + destruct (put_cases MAX_ITEMS format s k0 v Hwf)
        as [(v0 & f & Hk & Hf & ->)|[(Hk & Hsz & ->)|
            [(Hk & Hsz & _ & victim & fmin & cv & rest & Hf & _ & _ & ->)|
             (_ & Hz & _)]]]; simpl; (done || lia).
    + destruct (cache_data s !! k0) as [v|] eqn:Hk.
      * by destruct (get_run s k0 v (proj1 Hwf) Hk) as (f & Hf & ->).
      * by rewrite get_miss_run.
  - intros Hfull. destruct Hwf as [Hs _].
    destruct (evict_run format s Hs)
      as (victim & fmin & cv & rest & Hm & _ & _ & Hb & _).
    { intros He. apply (frequency_empty_size s Hs) in He. lia. }
    exists fmin. split; [done|]. unfold bucket_at. rewrite Hb. simpl. eauto.
Qed.

(** C10: [get] of a stored key leaves the value store as it was, prints
    nothing, and leaves the frequency of every other key and, in every
    bucket, the entries of the other keys (their stamps and their order)
    as they were. *)
Theorem get_frame history k v :
  let s := after MAX_ITEMS format history in
  let s' := step MAX_ITEMS format (Get (Some k)) s in
  cache_data s !! k = Some v →
  cache_data s' = cache_data s ∧
  (∀ k', k' ≠ k → frequency s' !! k' = frequency s !! k') ∧
  (∀ f', filter (λ e, e.1 ≠ k) (bucket_at s' f') =
         filter (λ e, e.1 ≠ k) (bucket_at s f')) ∧
  (∀ k', k' ≠ k → stamp s' k' = stamp s k') ∧
  output MAX_ITEMS format (Get (Some k)) s = [].
Proof.
  intros s s' Hv. destruct (wf_after MAX_ITEMS format history) as [Hs _].
  fold s in Hs. destruct (get_run s k v Hs Hv) as (f & Hf & Hget).
  subst s'. simpl. rewrite Hget. simpl.
  assert (∀ f', filter (λ e, e.1 ≠ k) (bucket_at (promoted k f s) f') =
                filter (λ e, e.1 ≠ k) (bucket_at s f')) as Hbuckets.
  { intros f'. rewrite bucket_at_promoted. repeat case_decide; subst.
    - apply filter_other_snoc.
    - apply filter_other_twice.
    - done. }
  split; [done|]. split; [by intros k' ?; rewrite lookup_insert_ne|].
  split; [done|]. split; [|done].
  intros k' Hne. unfold stamp. simpl. rewrite lookup_insert_ne by done.
  destruct (frequency s !! k') as [f'|]; [simpl|done].
  rewrite <-(od_get_filter k k' (bucket_at (promoted k f s) f')) by done.
  rewrite Hbuckets. by apply od_get_filter.
Qed.
End properties.

(** ** Further properties of the LFU cache *)

Section more_properties.
Context {K : Type} `{Countable K} {V : Type}.
Variable MAX_ITEMS : nat.
Variable format : K → string.
Local Abbreviation state := (@LFUCache K _ _ V).
Implicit Types (k : K) (v : V) (f c : nat) (s : state).
Implicit Types (op : @call K V) (history : list (@call K V)).

Local Arguments get : simpl never.
Local Arguments put : simpl never.

(** The first entry of a key in a bucket is an entry of the bucket. *)
Lemma od_get_elem k c (b : bucket K) : od_get k b = Some c → (k, c) ∈ b.
Proof.
  induction b as [|[k' c'] b IH]; simpl; [done|].
  case_decide; subst.
  - intros [= ->]. by left.
  - intros ?. right. by auto.
Qed.

Lemma od_get_snoc_fresh k c (b : bucket K) :
  k ∉ od_keys b → od_get k (b ++ [(k, c)]) = Some c.
Proof.
  unfold od_keys. induction b as [|[k' c'] b IH]; simpl.
  - intros _. by rewrite decide_True.
  - rewrite not_elem_of_cons. intros [? ?]. rewrite decide_False by done.
    by auto.
Qed.

(** The object a call leaves is again the object after a history. *)
Lemma step_after history op :
  step MAX_ITEMS format op (after MAX_ITEMS format history) =
    after MAX_ITEMS format (history ++ [op]).
Proof. by rewrite after_snoc. Qed.

(** X1: with a positive [MAX_ITEMS], a key that was just put with an item is
    stored with that item: the [get] that follows returns it (the key that
    is inserted is never the one the same call discards). *)
Theorem put_then_get history k v :
  let s := after MAX_ITEMS format history in
  let s1 := step MAX_ITEMS format (Put (Some k) (Some v)) s in
  0 < MAX_ITEMS →
  cache_data s1 !! k = Some v ∧ (get (Some k) s1).1.1 = Returns (Some v).
Proof.
  intros s s1 Hpos.
  pose proof (wf_after MAX_ITEMS format history) as Hwf. fold s in Hwf.
  assert (cache_data s1 !! k = Some v) as Hk.
  { subst s1. simpl.
    destruct (put_cases MAX_ITEMS format s k v Hwf)
      as [(v0 & f & _ & _ & ->)|[(_ & _ & ->)|
          [(_ & _ & _ & victim & fmin & cv & rest & _ & _ & _ & ->)|
           (_ & Hz & _)]]]; simpl; [..|lia]; by rewrite lookup_insert_eq. }
  split; [done|].
  assert (consistent s1) as Hs1.
  { subst s1 s. rewrite step_after. apply wf_after. }
  by destruct (get_run s1 k v Hs1 Hk) as (f & _ & ->).
Qed.

(** X2: a call never changes the item of a stored key other than the key
    it puts: a key stored before and after a call has the same item, unless
    the call is the [put] of that key with the new item. *)
Theorem values_persist history op k v v' :
  let s := after MAX_ITEMS format history in
  let s' := step MAX_ITEMS format op s in
  cache_data s !! k = Some v → cache_data s' !! k = Some v' →
  v' = v ∨ op = Put (Some k) (Some v').
Proof.
  intros s s' Hv. pose proof (wf_after MAX_ITEMS format history) as Hwf.
  fold s in Hwf. subst s'. destruct op as [[k0|] [v0|]|[k0|]]; simpl;
    rewrite ?put_null_run, ?get_null_run by auto; simpl;
    try (intros ?; left; congruence).
  - destruct (put_cases MAX_ITEMS format s k0 v0 Hwf)
      as [(v1 & f & _ & _ & ->)|[(_ & _ & ->)|
          [(_ & _ & _ & victim & fmin & cv & rest & _ & _ & _ & ->)|
           (_ & _ & ->)]]]; simpl;
      try (destruct (decide (k = k0)) as [->|Hne];
           [rewrite lookup_insert_eq; intros [= ->]; by right
           |rewrite lookup_insert_ne by done]).
    + intros ?. left. congruence.
    + intros ?. left. congruence.
    + intros [_ ?]%lookup_delete_Some. left. congruence.
    + intros ?. left. congruence.
  - destruct (cache_data s !! k0) as [v0|] eqn:Hk0.
    + destruct (get_run s k0 v0 (proj1 Hwf) Hk0) as (f & _ & ->). simpl.
      intros ?. left. congruence.
    + rewrite get_miss_run by done. simpl. intros ?. left. congruence.
Qed.

(** X3: below capacity [put] of a new key discards nothing and prints
    nothing: the store gains the key with its item, the key gets
    frequency 1 and the counter as its stamp, the counter grows by one and
    no other key changes its frequency. *)
Theorem put_with_room history k v :
  let s := after MAX_ITEMS format history in
  let s' := step MAX_ITEMS format (Put (Some k) (Some v)) s in
  cache_data s !! k = None → size (cache_data s) < MAX_ITEMS →
  put MAX_ITEMS format (Some k) (Some v) s = (Returns tt, s', []) ∧
  cache_data s' = <[k := v]> (cache_data s) ∧
  frequency s' = <[k := 1]> (frequency s) ∧
  stamp s' k = Some (lru_counter s) ∧
  lru_counter s' = lru_counter s + 1.
Proof.
  intros s s' Hk Hsz.
  destruct (wf_after MAX_ITEMS format history) as [Hs _]. fold s in Hs.
  subst s'. simpl. rewrite put_new_room_run by done. simpl.
  do 3 (split; [done|]). split; [|done].
  unfold stamp, bucket_at, inserted, lru_append. simpl.
  rewrite lookup_insert_eq. simpl. rewrite lookup_insert_eq. simpl.
  apply od_get_snoc_fresh. intros Hin.
  apply (not_member_new s k 1 Hs Hk). unfold member.
  destruct (lru s !! 1) as [b|]; simpl in Hin; [by eauto|].
  by apply elem_of_nil in Hin.
Qed.

(** X4: the frequency map and the index hold no stale keys: the keys of
    the frequency map are the stored keys, every key of a bucket is a
    stored key of that frequency, and every frequency is at least 1. *)
Theorem no_stale_entries history :
  let s := after MAX_ITEMS format history in
  dom (frequency s) = dom (cache_data s) ∧
  (∀ f k, k ∈ od_keys (bucket_at s f) →
     is_Some (cache_data s !! k) ∧ frequency s !! k = Some f) ∧
  (∀ k f, frequency s !! k = Some f → 1 ≤ f).
Proof.
  intros s. destruct (wf_after MAX_ITEMS format history) as [Hs _].
  fold s in Hs. split; [|split].
  - apply set_eq. intros k. rewrite !elem_of_dom. symmetry.
    apply (cons_dom s Hs).
  - intros f k Hin. unfold bucket_at in Hin.
    assert (frequency s !! k = Some f) as Hf.
    { apply (cons_freq s Hs). unfold member.
      destruct (lru s !! f) as [b|]; simpl in Hin; [by eauto|].
      by apply elem_of_nil in Hin. }
    split; [|done]. apply (cons_dom s Hs). eauto.
  - apply (cons_pos s Hs).
Qed.

(** No stamp occurs under two keys of the index [L]. *)
Definition unique_stamps (L : gmap nat (bucket K)) : Prop :=
  ∀ f1 f2 k1 k2 c,
    (k1, c) ∈ default [] (L !! f1) → (k2, c) ∈ default [] (L !! f2) → k1 = k2.

(** Every stamp of the index [L] is below [c]. *)
Definition stamps_below (c : nat) (L : gmap nat (bucket K)) : Prop :=
  ∀ f k c', (k, c') ∈ default [] (L !! f) → c' < c.

Lemma elem_bucket_remove f f' k (e : K * nat) (L : gmap nat (bucket K)) :
  e ∈ default [] (lru_remove f k L !! f') → e ∈ default [] (L !! f').
Proof.
  rewrite bucket_at_remove. case_decide; subst; [|done].
  by intros [_ ?]%list_elem_of_filter.
Qed.

Lemma elem_bucket_append f f' k c (e : K * nat) (L : gmap nat (bucket K)) :
  e ∈ default [] (lru_append f k c L !! f') →
  e ∈ default [] (L !! f') ∨ e = (k, c).
Proof.
  rewrite bucket_at_append. case_decide; subst; [|by left].
  rewrite elem_of_app, list_elem_of_singleton. done.
Qed.

Lemma unique_stamps_remove f k (L : gmap nat (bucket K)) :
  unique_stamps L → unique_stamps (lru_remove f k L).
Proof.
  intros HL f1 f2 k1 k2 c H1%elem_bucket_remove H2%elem_bucket_remove.
  by eapply HL.
Qed.

Lemma stamps_below_remove f k c (L : gmap nat (bucket K)) :
  stamps_below c L → stamps_below c (lru_remove f k L).
Proof. intros HL f' k' c' Hin%elem_bucket_remove. by eapply HL. Qed.

Lemma unique_stamps_append f k c (L : gmap nat (bucket K)) :
  unique_stamps L → stamps_below c L → unique_stamps (lru_append f k c L).
Proof.
  intros HL Hlt f1 f2 k1 k2 c' H1%elem_bucket_append H2%elem_bucket_append.
  destruct H1 as [H1|H1], H2 as [H2|H2].
  - by eapply HL.
  - injection H2 as -> ->. apply Hlt in H1. lia.
  - injection H1 as -> ->. apply Hlt in H2. lia.
  - congruence.
Qed.

Lemma consistent_stamps_below s :
  consistent s → stamps_below (lru_counter s) (lru s).
Proof.
  intros Hs f k c Hin. destruct (lru s !! f) as [b|] eqn:Hb; simpl in Hin;
    [|by apply elem_of_nil in Hin].
  destruct (cons_bucket s Hs f b Hb) as (_ & _ & _ & Hlt).
  rewrite Forall_forall in Hlt. by apply (Hlt (k, c)).
Qed.

Lemma unique_stamps_promoted s k f :
  consistent s → unique_stamps (lru s) → unique_stamps (lru (promoted k f s)).
Proof.
  intros Hs Hu. simpl. apply unique_stamps_append.
  - by apply unique_stamps_remove.
  - by apply stamps_below_remove, consistent_stamps_below.
Qed.

Lemma unique_stamps_inserted s k v :
  consistent s → unique_stamps (lru s) → unique_stamps (lru (inserted k v s)).
Proof.
  intros Hs Hu. simpl. apply unique_stamps_append; [done|].
  by apply consistent_stamps_below.
Qed.

(** What a call does to the index and to the counter, on a well-formed
    object. *)
Lemma unique_stamps_step s op :
  wf MAX_ITEMS s → unique_stamps (lru s) →
  unique_stamps (lru (step MAX_ITEMS format op s)) ∧
  lru_counter s ≤ lru_counter (step MAX_ITEMS format op s).
Proof.
  intros Hwf Hu. pose proof Hwf as [Hs _].
  destruct op as [[k0|] [v0|]|[k0|]]; simpl;
    rewrite ?put_null_run, ?get_null_run by auto; simpl; try done.
  - destruct (put_cases MAX_ITEMS format s k0 v0 Hwf)
      as [(v1 & f & Hk & _ & ->)|[(_ & _ & ->)|
          [(_ & _ & _ & victim & fmin & cv & rest & Hf & _ & _ & ->)|
           (_ & _ & ->)]]]; [..|done].
    + split; [|simpl; lia].
      apply unique_stamps_promoted; [|done].
      apply consistent_set_value; eauto.
    + split; [|simpl; lia]. by apply unique_stamps_inserted.
    + split; [|simpl; lia]. apply unique_stamps_inserted.
      * by apply consistent_evicted.
      * simpl. by apply unique_stamps_remove.
  - destruct (cache_data s !! k0) as [v0|] eqn:Hk0.
    + destruct (get_run s k0 v0 Hs Hk0) as (f & _ & ->).
      split; [|simpl; lia]. by apply unique_stamps_promoted.
    + by rewrite get_miss_run.
Qed.

Lemma unique_stamps_after history :
  unique_stamps (lru (after MAX_ITEMS format history)).
Proof.
  induction history as [|op history IH] using rev_ind.
  - intros f1 f2 k1 k2 c Hin. simpl in Hin. rewrite lookup_empty in Hin.
    by apply elem_of_nil in Hin.
  - rewrite after_snoc. apply unique_stamps_step; [apply wf_after|done].
Qed.

(** X5: the counter [lru_counter] never goes down over a call; every
    stored key has a stamp, below the counter; and no stamp is shared by
    two stored keys. *)
Theorem stamps_are_fresh history op :
  let s := after MAX_ITEMS format history in
  let s' := step MAX_ITEMS format op s in
  lru_counter s ≤ lru_counter s' ∧
  (∀ k, is_Some (cache_data s !! k) →
     ∃ c, stamp s k = Some c ∧ c < lru_counter s) ∧
  (∀ k1 k2 c, stamp s k1 = Some c → stamp s k2 = Some c → k1 = k2).
Proof.
  intros s s'. pose proof (wf_after MAX_ITEMS format history) as Hwf.
  pose proof (unique_stamps_after history) as Hu. fold s in Hwf, Hu.
  pose proof Hwf as [Hs _]. split; [|split].
  - by apply unique_stamps_step.
  - intros k [f Hf]%(cons_dom s Hs).
    pose proof (proj1 (cons_freq s Hs k f) Hf) as (b & Hb & Hin).
    destruct (od_get_is_Some k b Hin) as [c Hc]. exists c.
    unfold stamp, bucket_at. rewrite Hf. simpl. rewrite Hb. simpl.
    split; [done|]. apply od_get_elem in Hc.
    apply (consistent_stamps_below s Hs f k c). by rewrite Hb.
  - unfold stamp, bucket_at. intros k1 k2 c H1 H2.
    destruct (frequency s !! k1) as [f1|]; [|done].
    destruct (frequency s !! k2) as [f2|]; [|done]. simpl in *.
    apply od_get_elem in H1, H2. by eapply Hu.
Qed.
End more_properties.

(** ** The example run *)

(** [put("C", 3)] on the full cache discards ["B"], the only key of
    frequency 1, and says so. *)
Example scenario_discards_B :
  put 2 id (Some "C") (Some 3) (after 2 id scenario) =
    (Returns tt,
     mkLFUCache {[ "A" := 1; "C" := 3 ]} {[ "A" := 2; "C" := 1 ]}
       {[ 1 := [("C", 3)]; 2 := [("A", 2)] ]} 4,
     ["DISCARD: B"]).
Proof. vm_compute. reflexivity. Qed.

(** [put("C", 4)] then overwrites and counts as a use; a missing key is not
    found. *)
Example scenario_overwrites_C :
  let s := after 2 id (scenario ++ [Put (Some "C") (Some 3)]) in
  put 2 id (Some "C") (Some 4) s =
    (Returns tt,
     mkLFUCache {[ "A" := 1; "C" := 4 ]} {[ "A" := 2; "C" := 2 ]}
       {[ 2 := [("A", 2); ("C", 4)] ]} 5,
     []) ∧
  get (Some "Z") s = (Returns None, s, []).
Proof. split; vm_compute; reflexivity. Qed.

(** Among keys of one frequency the stamp decides: after another use of
    ["B"] both keys have frequency 2 and ["A"], promoted first, goes. *)
Example scenario_tie_discards_A :
  output 2 id (Put (Some "C") (Some 3))
    (after 2 id (scenario ++ [Get (Some "B")])) = ["DISCARD: A"].
Proof. vm_compute. reflexivity. Qed.

(** A cache without room raises on its first insertion. *)
Example no_room_raises :
  put (V := nat) 0 id (Some "A") (Some 1) init = (Raises ValueError, init, []).
Proof. vm_compute. reflexivity. Qed.

(** ** The properties on the example run *)

(** C1 on the example run: ["C"] is new and the cache is full. *)
Lemma put_evicts_least_frequent_oldest_witness :
  let s := after 2 id scenario in
  let s' := step 2 id (Put (Some "C") (Some 3)) s in
  (0 < 2 ∧ cache_data s !! "C" = None ∧ size (cache_data s) = 2) ∧
  ∃ victim fmin cv,
    is_Some (cache_data s !! victim) ∧
    cache_data s' !! victim = None ∧
    (∀ k', k' ≠ victim → k' ≠ "C" →
       cache_data s' !! k' = cache_data s !! k') ∧
    frequency s !! victim = Some fmin ∧
    (∀ k', is_Some (cache_data s !! k') →
       ∃ f', frequency s !! k' = Some f' ∧ fmin ≤ f') ∧
    od_first (bucket_at s fmin) = Some victim ∧
    stamp s victim = Some cv ∧
    (∀ k', k' ≠ victim → frequency s !! k' = Some fmin →
       ∃ c', stamp s k' = Some c' ∧ cv < c').
Proof.
  assert (0 < 2) as H1 by lia.
  assert (cache_data (after 2 id scenario) !! "C" = None) as H2
    by (vm_compute; reflexivity).
  assert (size (cache_data (after 2 id scenario)) = 2) as H3
    by (vm_compute; reflexivity).
  split; [done|].
  exact (put_evicts_least_frequent_oldest 2 id scenario "C" 3 H1 H2 H3).
Defined.

(** C3 on the example run: ["A"] is stored, ["Z"] is not. *)
Lemma get_promotes_witness :
  let s := after 2 id scenario in
  (∃ f s',
     get (Some "A") s = (Returns (Some 1), s', []) ∧
     frequency s !! "A" = Some f ∧
     frequency s' !! "A" = Some (f + 1) ∧
     bucket_at s' f = filter (λ e, e.1 ≠ "A") (bucket_at s f) ∧
     ("A" ∉ od_keys (bucket_at s' f)) ∧
     (bucket_at s' f = [] → lru s' !! f = None) ∧
     bucket_at s' (f + 1) = bucket_at s (f + 1) ++ [("A", lru_counter s)] ∧
     Forall (λ e, e.2 < lru_counter s) (bucket_at s (f + 1)) ∧
     lru_counter s' = lru_counter s + 1) ∧
  get (Some "Z") s = (Returns None, s, []) ∧
  get None s = (Returns None, s, []).
Proof.
  assert (cache_data (after 2 id scenario) !! "A" = Some 1) as H1
    by (vm_compute; reflexivity).
  assert (cache_data (after 2 id scenario) !! "Z" = None) as H2
    by (vm_compute; reflexivity).
  split; [|split].
  - exact (proj1 (get_promotes 2 id scenario (Some "A")) "A" 1 eq_refl H1).
  - apply (proj2 (get_promotes 2 id scenario (Some "Z"))).
    right. exists "Z". by split.
  - apply (proj2 (get_promotes 2 id scenario None)). by left.
Defined.

(** C4 on the example run: ["B"] is stored and the cache is full. *)
Lemma put_overwrites_witness :
  let s := after 2 id scenario in
  let s' := step 2 id (Put (Some "B") (Some 5)) s in
  let sg := step 2 id (Get (Some "B")) s in
  (cache_data s !! "B" = Some 2 ∧ size (cache_data s) = 2) ∧
  ∃ f,
    put 2 id (Some "B") (Some 5) s = (Returns tt, s', []) ∧
    cache_data s' = <["B" := 5]> (cache_data s) ∧
    frequency s !! "B" = Some f ∧
    frequency s' !! "B" = Some (f + 1) ∧
    (frequency s' = frequency sg ∧ lru s' = lru sg ∧
     lru_counter s' = lru_counter sg) ∧
    size (cache_data s') = size (cache_data s) ∧
    dom (cache_data s') = dom (cache_data s).
Proof.
  assert (cache_data (after 2 id scenario) !! "B" = Some 2) as H1
    by (vm_compute; reflexivity).
  assert (size (cache_data (after 2 id scenario)) = 2) as H2
    by (vm_compute; reflexivity).
  split; [done|].
  exact (put_overwrites 2 id scenario "B" 5 2 H1).
Defined.

(** C7 on the example run: ["A"] stays stored over a [get]; ["C"] gets
    frequency 1 by its insertion. *)
Lemma frequency_monotone_witness :
  let s := after 2 id scenario in
  let s1 := step 2 id (Get (Some "A")) s in
  let s2 := step 2 id (Put (Some "C") (Some 3)) s in
  (∃ f f', frequency s !! "A" = Some f ∧ frequency s1 !! "A" = Some f' ∧
     f ≤ f') ∧
  (cache_data s !! "C" = None ∧
   ∃ v, Put (Some "C") (Some 3) = Put (Some "C") (Some v)).
Proof.
  split.
  - apply (proj1 (frequency_monotone 2 id scenario (Get (Some "A")) "A")).
    + vm_compute. eexists. reflexivity.
    + vm_compute. eexists. reflexivity.
  - apply
      (proj2 (frequency_monotone 2 id scenario (Put (Some "C") (Some 3)) "C")).
    + vm_compute. reflexivity.
    + vm_compute. discriminate.
Defined.

(** C8 on the example run, with room for two keys. *)
Lemma calls_never_raise_witness :
  let s := after 2 id scenario in
  raised 2 id (Put (Some "C") (Some 3)) s = false ∧
  (2 ≤ size (cache_data s) →
     ∃ m, py_min (map_to_list (frequency s)).*2 = Some m ∧
       is_Some (od_first (bucket_at s m))).
Proof.
  apply (calls_never_raise 2 id scenario (Put (Some "C") (Some 3))). lia.
Defined.

(** C10 on the example run: [get("B")]. *)
Lemma get_frame_witness :
  let s := after 2 id scenario in
  let s' := step 2 id (Get (Some "B")) s in
  cache_data s !! "B" = Some 2 ∧
  cache_data s' = cache_data s ∧
  (∀ k', k' ≠ "B" → frequency s' !! k' = frequency s !! k') ∧
  (∀ f', filter (λ e, e.1 ≠ "B") (bucket_at s' f') =
         filter (λ e, e.1 ≠ "B") (bucket_at s f')) ∧
  (∀ k', k' ≠ "B" → stamp s' k' = stamp s k') ∧
  output 2 id (Get (Some "B")) s = [].
Proof.
  assert (cache_data (after 2 id scenario) !! "B" = Some 2) as H1
    by (vm_compute; reflexivity).
  split; [done|].
  exact (get_frame 2 id scenario "B" 2 H1).
Defined.

(** X1 on the example run: ["C"] is put into the full cache. *)
Lemma put_then_get_witness :
  let s := after 2 id scenario in
  let s1 := step 2 id (Put (Some "C") (Some 3)) s in
  cache_data s1 !! "C" = Some 3 ∧ (get (Some "C") s1).1.1 = Returns (Some 3).
Proof. apply (put_then_get 2 id scenario "C" 3). lia. Defined.

(** X2 on the example run: ["A"] keeps its item while ["B"] is put. *)
Lemma values_persist_witness :
  1 = 1 ∨ Put (Some "B") (Some 5) = Put (Some "A") (Some 1).
Proof.
  apply (values_persist 2 id scenario (Put (Some "B") (Some 5)) "A" 1 1).
  - vm_compute. reflexivity.
  - vm_compute. reflexivity.
Defined.

(** X3 on a cache with room: ["B"] is put after ["A"]. *)
Lemma put_with_room_witness :
  let s := after (V := nat) 2 id [Put (Some "A") (Some 1)] in
  let s' := step 2 id (Put (Some "B") (Some 2)) s in
  put 2 id (Some "B") (Some 2) s = (Returns tt, s', []) ∧
  cache_data s' = <["B" := 2]> (cache_data s) ∧
  frequency s' = <["B" := 1]> (frequency s) ∧
  stamp s' "B" = Some (lru_counter s) ∧
  lru_counter s' = lru_counter s + 1.
Proof.
  apply (put_with_room 2 id [Put (Some "A") (Some 1)] "B" 2).
  - vm_compute. reflexivity.
  - vm_compute. lia.
Defined.

End lfu_cache.

(** * Python's [OrderedDict] with any values

    The caches of [2-lifo_cache.py] and [4-mru_cache.py] keep their items in
    one [OrderedDict]: an association list in insertion order, oldest
    first, that holds no key twice. *)

Module odict.
Section odict.
Context {K V : Type} `{EqDecision K}.
Implicit Types (k : K) (v : V) (d : list (K * V)).

Definition keys d : list K := d.*1.

(** [d.get(k)]: the value of [k], [None] for a missing key. *)
Fixpoint getitem k d : option V :=
  match d with
  | [] => None
  | (k', v') :: d' => if decide (k' = k) then Some v' else getitem k d'
  end.

(** [d[k] = v]: a key that is already there keeps its position, a new key
    goes to the end. *)
Fixpoint setitem k v d : list (K * V) :=
  match d with
  | [] => [(k, v)]
  | (k', v') :: d' =>
      if decide (k' = k) then (k', v) :: d' else (k', v') :: setitem k v d'
  end.

(** [d.popitem()]: the last pair and the dict without it; [None] stands for
    the [KeyError] of an empty dict. *)
Fixpoint popitem d : option ((K * V) * list (K * V)) :=
  match d with
  | [] => None
  | e :: d' =>
      match popitem d' with
      | None => Some (e, [])
      | Some (l, r) => Some (l, e :: r)
      end
  end.

(** [d.move_to_end(k)]: [None] stands for the [KeyError] of a missing
    key. *)
Definition move_to_end k d : option (list (K * V)) :=
  match getitem k d with
  | Some v => Some (filter (λ e, e.1 ≠ k) d ++ [(k, v)])
  | None => None
  end.

(** *** Facts *)

Lemma getitem_Some_keys k v d : getitem k d = Some v → k ∈ keys d.
Proof.
  unfold keys. induction d as [|[k' v'] d IH]; simpl; [done|].
  case_decide; subst; [by left|]. intros ?. right. by auto.
Qed.

Lemma getitem_None_keys k d : getitem k d = None ↔ k ∉ keys d.
Proof.
  unfold keys. induction d as [|[k' v'] d IH]; simpl.
  - split; [|done]. by intros _ ?%elem_of_nil.
  - rewrite not_elem_of_cons. case_decide; subst.
    + split; [done|]. by intros [? _].
    + rewrite IH. split; [by auto|by intros [_ ?]].
Qed.

Lemma getitem_is_Some k d : k ∈ keys d → is_Some (getitem k d).
Proof.
  intros Hin. destruct (getitem k d) eqn:Hg; [by eauto|].
  by apply getitem_None_keys in Hg.
Qed.

Lemma getitem_setitem k k' v d :
  getitem k' (setitem k v d) = if decide (k' = k) then Some v else getitem k' d.
Proof.
  induction d as [|[k0 v0] d IH]; simpl.
  - repeat case_decide; congruence.
  - destruct (decide (k0 = k)) as [->|Hne]; simpl.
    + repeat case_decide; congruence.
    + rewrite IH. repeat case_decide; congruence.
Qed.

Lemma keys_setitem_old k v d : k ∈ keys d → keys (setitem k v d) = keys d.
Proof.
  unfold keys. induction d as [|[k0 v0] d IH]; simpl.
  - by intros ?%elem_of_nil.
  - intros Hin. case_decide; subst; simpl; [done|].
    f_equal. apply IH. by apply elem_of_cons in Hin as [?|?].
Qed.

Lemma keys_setitem_new k v d : k ∉ keys d → keys (setitem k v d) = keys d ++ [k].
Proof.
  unfold keys. induction d as [|[k0 v0] d IH]; simpl; [done|].
  rewrite not_elem_of_cons. intros [? ?]. rewrite decide_False by done.
  simpl. f_equal. by auto.
Qed.

Lemma setitem_new k v d : k ∉ keys d → setitem k v d = d ++ [(k, v)].
Proof.
  unfold keys. induction d as [|[k0 v0] d IH]; simpl; [done|].
  rewrite not_elem_of_cons. intros [? ?]. rewrite decide_False by done.
  f_equal. by auto.
Qed.

Lemma setitem_NoDup k v d : NoDup (keys d) → NoDup (keys (setitem k v d)).
Proof.
  intros Hnd. destruct (decide (k ∈ keys d)) as [Hin|Hout].
  - by rewrite keys_setitem_old.
  - rewrite keys_setitem_new by done. apply NoDup_app. split; [done|].
    split; [|apply NoDup_singleton].
    by intros x Hx ->%list_elem_of_singleton.
Qed.

Lemma setitem_length k v d :
  length (setitem k v d) =
    if decide (k ∈ keys d) then length d else S (length d).
Proof.
  case_decide as Hin.
  - rewrite <-(length_fmap fst (setitem k v d)), <-(length_fmap fst d).
    fold (keys (setitem k v d)). by rewrite keys_setitem_old.
  - rewrite setitem_new by done. rewrite length_app. simpl. lia.
Qed.

Lemma popitem_snoc d e : popitem (d ++ [e]) = Some (e, d).
Proof. induction d as [|e' d IH]; simpl; [done|]. by rewrite IH. Qed.

Lemma popitem_Some d e r : popitem d = Some (e, r) → d = r ++ [e].
Proof.
  revert e r. induction d as [|e' d IH]; simpl; [done|]. intros e r.
  destruct (popitem d) as [[l r']|] eqn:Hp.
  - intros [= <- <-]. simpl. f_equal. by apply IH.
  - intros [= <- <-]. destruct d as [|e'' d]; [done|].
    simpl in Hp. by destruct (popitem d) as [[? ?]|].
Qed.

Lemma popitem_None d : popitem d = None ↔ d = [].
Proof.
  destruct d as [|e d]; simpl; [done|].
  by destruct (popitem d) as [[? ?]|].
Qed.

Lemma getitem_snoc_ne k k' v d :
  k' ≠ k → getitem k' (d ++ [(k, v)]) = getitem k' d.
Proof.
  intros Hne. induction d as [|[k0 v0] d IH]; simpl.
  - by rewrite decide_False.
  - by rewrite IH.
Qed.

Lemma getitem_snoc_last k v d :
  k ∉ keys d → getitem k (d ++ [(k, v)]) = Some v.
Proof.
  unfold keys. induction d as [|[k0 v0] d IH]; simpl.
  - intros _. by rewrite decide_True.
  - rewrite not_elem_of_cons. intros [? ?]. rewrite decide_False by done.
    by auto.
Qed.

Lemma keys_without k k' d :
  k' ∈ keys (filter (λ e, e.1 ≠ k) d) ↔ k' ∈ keys d ∧ k' ≠ k.
Proof.
  unfold keys. rewrite !list_elem_of_fmap. split.
  - intros [e [-> [? ?]%list_elem_of_filter]]. eauto.
  - intros [[e [-> ?]] ?]. exists e. split; [done|].
    by apply list_elem_of_filter.
Qed.

Lemma keys_without_NoDup k d :
  NoDup (keys d) → NoDup (keys (filter (λ e, e.1 ≠ k) d)).
Proof.
  unfold keys. induction d as [|[k' v'] d IH]; [done|].
  rewrite fmap_cons, NoDup_cons. intros [Hk' Hd].
  rewrite filter_cons. case_decide; [|by auto].
  rewrite fmap_cons. apply NoDup_cons. split; [|by auto].
  intros Hin. apply Hk'. by apply (keys_without k k' d).
Qed.

Lemma getitem_without k k' d :
  k' ≠ k → getitem k' (filter (λ e, e.1 ≠ k) d) = getitem k' d.
Proof.
  intros Hne. induction d as [|[k0 v0] d IH]; [done|].
  rewrite filter_cons. simpl. case_decide as Hk0.
  - simpl. by rewrite IH.
  - rewrite IH. rewrite decide_False; [done|]. by intros ->.
Qed.

Lemma length_without k d :
  NoDup (keys d) → k ∈ keys d →
  S (length (filter (λ e, e.1 ≠ k) d)) = length d.
Proof.
  unfold keys. induction d as [|[k0 v0] d IH]; [by intros _ ?%elem_of_nil|].
  rewrite fmap_cons, NoDup_cons, elem_of_cons, filter_cons. simpl.
  intros [Hk0 Hd] Hin. case_decide as Hk.
  - simpl. f_equal. apply IH; [done|]. by destruct Hin as [->|?].
  - assert (k0 = k) as -> by (by destruct (decide (k0 = k))).
    f_equal. f_equal. clear IH Hin Hk Hd.
    induction d as [|[k1 v1] d IH]; [done|].
    rewrite fmap_cons, not_elem_of_cons in Hk0. destruct Hk0 as [? ?].
    simpl in *. rewrite filter_cons, decide_True by (simpl; congruence).
    f_equal. by auto.
Qed.
Lemma keys_snoc_NoDup d (e : K * V) :
  NoDup (keys (d ++ [e])) → NoDup (keys d) ∧ e.1 ∉ keys d.
Proof.
  unfold keys. rewrite fmap_app. intros (? & Hout & _)%NoDup_app.
  split; [done|]. intros Hin. apply (Hout _ Hin). by left.
Qed.

Lemma keys_snoc_NoDup_2 d k v :
  NoDup (keys d) → k ∉ keys d → NoDup (keys (d ++ [(k, v)])).
Proof.
  intros Hnd Hout. unfold keys. rewrite fmap_app. apply NoDup_app.
  split; [done|]. split; [|apply NoDup_singleton].
  by intros x Hx ->%list_elem_of_singleton.
Qed.
End odict.
End odict.

(** * The LIFO cache of [0x01-caching/2-lifo_cache.py]

    The object has one attribute, the [OrderedDict] [cache_data]; the
    methods are modelled on it.  Exceptions, outcomes and calls are those
    of the LFU cache. *)

Module lifo_cache.
Import lfu_cache (outcome, Returns, Raises, exn, KeyError, call, Put, Get).

Section LIFOCache.
Context {K V : Type} `{EqDecision K}.

(** [BaseCaching.MAX_ITEMS], a parameter as for the LFU cache. *)
Variable MAX_ITEMS : nat.
(** How an f-string renders a key. *)
Variable format : K → string.

Implicit Types (cache_data : list (K * V)).

(** [LIFOCache.__init__] *)
Definition init : list (K * V) := [].

(** [LIFOCache.put]: the outcome, [cache_data] after the call and the lines
    printed. *)
Definition put (key : option K) (item : option V) cache_data :
    outcome unit * list (K * V) * list string :=
  match key, item with
  | Some key, Some item =>
      if decide (MAX_ITEMS ≤ length cache_data) then              (* line 45 *)
        match odict.popitem cache_data with                        (* line 46 *)
        | None => (Raises KeyError, cache_data, [])
        | Some (discard, rest) =>
            (Returns tt, odict.setitem key item rest,              (* line 48 *)
             ["DISCARD: " +:+ format discard.1])                   (* line 47 *)
        end
      else (Returns tt, odict.setitem key item cache_data, [])
  | _, _ => (Returns tt, cache_data, [])
  end.

(** [LIFOCache.get]: it changes nothing. *)
Definition get (key : option K) cache_data : option V :=
  match key with
  | None => None
  | Some key => odict.getitem key cache_data
  end.

(** [cache_data] after a call, whether it returned or raised. *)
Definition step (c : call) cache_data : list (K * V) :=
  match c with
  | Put key item => (put key item cache_data).1.2
  | Get key => cache_data
  end.

(** [cache_data] after a history of calls on a new cache. *)
Definition after (history : list call) : list (K * V) :=
  foldl (λ s c, step c s) init history.
End LIFOCache.

(** ** Properties of the LIFO cache *)

Section lifo_properties.
Context {K V : Type} `{EqDecision K}.
Variable MAX_ITEMS : nat.
Variable format : K → string.
Implicit Types (k : K) (v : V) (d : list (K * V)).
Implicit Types (op : @call K V) (history : list (@call K V)).

Local Arguments put : simpl never.

(** No key twice and no more keys than [MAX_ITEMS]. *)
Definition lifo_wf d : Prop := NoDup (odict.keys d) ∧ length d ≤ MAX_ITEMS.

(** [put] with a key and an item on a full, non-empty cache. *)
Lemma lifo_put_full_run k v d :
  MAX_ITEMS ≤ length d → d ≠ [] →
  ∃ kl vl r, d = r ++ [(kl, vl)] ∧
    put MAX_ITEMS format (Some k) (Some v) d =
      (Returns tt, odict.setitem k v r, ["DISCARD: " +:+ format kl]).
Proof.
  intros Hfull Hne. unfold put. rewrite decide_True by done.
  destruct (odict.popitem d) as [[[kl vl] r]|] eqn:Hp.
  - exists kl, vl, r. split; [by apply odict.popitem_Some|done].
  - by apply odict.popitem_None in Hp.
Qed.

Lemma lifo_put_room_run k v d :
  length d < MAX_ITEMS →
  put MAX_ITEMS format (Some k) (Some v) d =
    (Returns tt, odict.setitem k v d, []).
Proof. intros Hlt. unfold put. by rewrite decide_False by lia. Qed.

Lemma lifo_wf_step op d : lifo_wf d → lifo_wf (step MAX_ITEMS format op d).
Proof.
  intros [Hnd Hlen]. destruct op as [[k|] [v|]|key]; simpl; try done.
  destruct (decide (length d < MAX_ITEMS)) as [Hlt|Hge].
  - rewrite lifo_put_room_run by done. simpl. split.
    + by apply odict.setitem_NoDup.
    + rewrite odict.setitem_length. case_decide; lia.
  - destruct (decide (d = [])) as [->|Hne].
    + unfold put. by rewrite decide_True by (simpl in *; lia).
    + destruct (lifo_put_full_run k v d) as (kl & vl & r & -> & ->); [lia|done|].
      simpl. apply odict.keys_snoc_NoDup in Hnd as [Hnd _].
      rewrite length_app in Hlen. simpl in Hlen. split.
      * by apply odict.setitem_NoDup.
      * rewrite odict.setitem_length. case_decide; lia.
Qed.

Lemma lifo_wf_after history : lifo_wf (after MAX_ITEMS format history).
Proof.
  induction history as [|op history IH] using rev_ind.
  - split; [constructor|simpl; lia].
  - unfold after. rewrite foldl_app. simpl. by apply lifo_wf_step.
Qed.

(** X6: after any sequence of calls the LIFO cache holds no key twice and
    at most [MAX_ITEMS] keys. *)
Theorem lifo_capacity history :
  NoDup (odict.keys (after MAX_ITEMS format history)) ∧
  length (after MAX_ITEMS format history) ≤ MAX_ITEMS.
Proof. apply lifo_wf_after. Qed.

(** X7: with a positive [MAX_ITEMS], [put] never raises and the key that
    was put is stored with its item, whatever the cache held; below
    capacity it prints nothing and leaves the items of the other keys as
    they were. *)
Theorem lifo_put_then_get k v d :
  let d' := (put MAX_ITEMS format (Some k) (Some v) d).1.2 in
  0 < MAX_ITEMS →
  (put MAX_ITEMS format (Some k) (Some v) d).1.1 = Returns tt ∧
  get (Some k) d' = Some v ∧
  (length d < MAX_ITEMS →
     (put MAX_ITEMS format (Some k) (Some v) d).2 = [] ∧
     ∀ k', k' ≠ k → get (Some k') d' = get (Some k') d).
Proof.
  intros d' Hpos. subst d'.
  destruct (decide (length d < MAX_ITEMS)) as [Hlt|Hge].
  - rewrite lifo_put_room_run by done. simpl.
    rewrite odict.getitem_setitem, decide_True by done.
    do 3 (split; [done|]). intros k' Hne.
    by rewrite odict.getitem_setitem, decide_False.
  - destruct (lifo_put_full_run k v d) as (kl & vl & r & -> & ->); [lia| |].
    { intros ->. simpl in *. lia. }
    simpl. rewrite odict.getitem_setitem, decide_True by done.
    do 2 (split; [done|]). intros ?. lia.
Qed.


(** X9: a key that enters the cache is its last pair: when the cache is
    full then, it is the key the next [put] discards, whichever key that
    [put] brings. *)
Theorem lifo_last_in_first_out history k v k2 v2 :
  let d := after MAX_ITEMS format history in
  let d1 := step MAX_ITEMS format (Put (Some k) (Some v)) d in
  0 < MAX_ITEMS → k ∉ odict.keys d → length d1 = MAX_ITEMS →
  (put MAX_ITEMS format (Some k2) (Some v2) d1).2 =
    ["DISCARD: " +:+ format k].
Proof.
  intros d d1 Hpos Hk Hlen.
  assert (∃ r, d1 = r ++ [(k, v)]) as [r Hr].
  { subst d1. simpl.
    destruct (decide (length d < MAX_ITEMS)) as [Hlt|Hge].
    - rewrite lifo_put_room_run by done. simpl. exists d.
      by apply odict.setitem_new.
    - destruct (lifo_put_full_run k v d) as (kl & vl & r & Hd & ->); [lia| |].
      { intros Hnil. rewrite Hnil in Hge. simpl in Hge. lia. }
      simpl. exists r. apply odict.setitem_new. intros Hin. apply Hk.
      rewrite Hd. unfold odict.keys in *. rewrite fmap_app, elem_of_app.
      by left. }
  destruct (lifo_put_full_run k2 v2 d1) as (kl & vl & r' & Hd1 & ->); [lia| |].
  { intros Hnil. rewrite Hnil in Hlen. simpl in Hlen. lia. }
  rewrite Hr in Hd1. apply app_inj_tail in Hd1 as [_ [= <- <-]]. done.
Qed.
End lifo_properties.

(** ** The LIFO cache on an example: room for two keys, ["A"] then ["B"]
    are put. *)

Definition lifo_two_puts : list (@call string nat) :=
  [Put (Some "A") (Some 1); Put (Some "B") (Some 2)].

(** X7 on the example: ["C"] is put into the full cache. *)
Lemma lifo_put_then_get_witness :
  let d := after 2 id lifo_two_puts in
  let d' := (put 2 id (Some "C") (Some 3) d).1.2 in
  (put 2 id (Some "C") (Some 3) d).1.1 = Returns tt ∧
  get (Some "C") d' = Some 3 ∧
  ((length d < 2)%nat →
     (put 2 id (Some "C") (Some 3) d).2 = [] ∧
     ∀ k', k' ≠ "C" → get (Some k') d' = get (Some k') d).
Proof. apply (lifo_put_then_get 2 id "C" 3 (after 2 id lifo_two_puts)). lia. Defined.


(** X9 on the example: ["B"] entered last. *)
Lemma lifo_last_in_first_out_witness :
  (put 2 id (Some "C") (Some 3)
     (step 2 id (Put (Some "B") (Some 2))
        (after 2 id [Put (Some "A") (Some 1)]))).2 = ["DISCARD: " +:+ id "B"].
Proof.
  apply (lifo_last_in_first_out 2 id [Put (Some "A") (Some 1)] "B" 2 "C" 3).
  - lia.
  - vm_compute. intros Hin. by repeat (apply elem_of_cons in Hin as [?|Hin]);
      try apply elem_of_nil in Hin.
  - vm_compute. reflexivity.
Defined.
End lifo_cache.

(** * The MRU cache of [0x01-caching/4-mru_cache.py]

    As for the LIFO cache the object is its [OrderedDict] [cache_data]; here
    [get] reorders it. *)

Module mru_cache.
Import lfu_cache (outcome, Returns, Raises, exn, KeyError, call, Put, Get).

Section MRUCache.
Context {K V : Type} `{EqDecision K}.

(** [BaseCaching.MAX_ITEMS], a parameter as for the LFU cache. *)
Variable MAX_ITEMS : nat.
(** How an f-string renders a key. *)
Variable format : K → string.

Implicit Types (cache_data : list (K * V)).

(** [MRUCache.__init__] *)
Definition init : list (K * V) := [].

(** [MRUCache.put]: the outcome, [cache_data] after the call and the lines
    printed. *)
Definition put (key : option K) (item : option V) cache_data :
    outcome unit * list (K * V) * list string :=
  match key, item with
  | Some key, Some item =>
      if decide (key ∈ odict.keys cache_data) then                (* line 28 *)
        match odict.move_to_end key cache_data with               (* line 29 *)
        | None => (Raises KeyError, cache_data, [])
        | Some moved => (Returns tt, odict.setitem key item moved, [])
        end
      else if decide (MAX_ITEMS ≤ length cache_data) then         (* line 30 *)
        match odict.popitem cache_data with                       (* line 31 *)
        | None => (Raises KeyError, cache_data, [])
        | Some (discard, rest) =>
            (Returns tt, odict.setitem key item rest,             (* line 34 *)
             ["DISCARD: " +:+ format discard.1])                  (* line 32 *)
        end
      else (Returns tt, odict.setitem key item cache_data, [])
  | _, _ => (Returns tt, cache_data, [])
  end.

(** [MRUCache.get]: the outcome and [cache_data] after the call.  The test
    [key not in self.cache_data] comes first; [None] is a key of no
    cache. *)
Definition get (key : option K) cache_data :
    outcome (option V) * list (K * V) :=
  match key with
  | None => (Returns None, cache_data)
  | Some key =>
      if decide (key ∈ odict.keys cache_data) then
        match odict.move_to_end key cache_data with               (* line 47 *)
        | None => (Raises KeyError, cache_data)
        | Some moved =>
            match odict.getitem key moved with                    (* line 48 *)
            | None => (Raises KeyError, moved)
            | Some value => (Returns (Some value), moved)
            end
        end
      else (Returns None, cache_data)
  end.

(** [cache_data] after a call, whether it returned or raised. *)
Definition step (c : call) cache_data : list (K * V) :=
  match c with
  | Put key item => (put key item cache_data).1.2
  | Get key => (get key cache_data).2
  end.

(** [cache_data] after a history of calls on a new cache. *)
Definition after (history : list call) : list (K * V) :=
  foldl (λ s c, step c s) init history.
End MRUCache.

(** ** Properties of the MRU cache *)

Section mru_properties.
Context {K V : Type} `{EqDecision K}.
Variable MAX_ITEMS : nat.
Variable format : K → string.
Implicit Types (k : K) (v : V) (d : list (K * V)).
Implicit Types (op : @call K V) (history : list (@call K V)).

Local Arguments put : simpl never.
Local Arguments get : simpl never.

(** [cache_data] with key [k] taken out and put back last with [v]. *)
Definition touched k v d : list (K * V) :=
  filter (λ e, e.1 ≠ k) d ++ [(k, v)].

(** No key twice and no more keys than [MAX_ITEMS]. *)
Definition mru_wf d : Prop := NoDup (odict.keys d) ∧ length d ≤ MAX_ITEMS.

Lemma mru_not_in_without k d : k ∉ odict.keys (filter (λ e, e.1 ≠ k) d).
Proof. rewrite odict.keys_without. by intros [_ ?]. Qed.

Lemma mru_setitem_snoc_same k v v0 (r : list (K * V)) :
  k ∉ odict.keys r → odict.setitem k v (r ++ [(k, v0)]) = r ++ [(k, v)].
Proof.
  unfold odict.keys. induction r as [|[k1 v1] r IH]; simpl.
  - intros _. by rewrite decide_True.
  - rewrite not_elem_of_cons. intros [? ?]. rewrite decide_False by done.
    f_equal. by auto.
Qed.

Lemma mru_put_stored_run k v d :
  k ∈ odict.keys d →
  put MAX_ITEMS format (Some k) (Some v) d = (Returns tt, touched k v d, []).
Proof.
  intros Hin. unfold put, odict.move_to_end. rewrite decide_True by done.
  destruct (odict.getitem_is_Some k d Hin) as [v0 ->].
  rewrite mru_setitem_snoc_same; [done|apply mru_not_in_without].
Qed.

Lemma mru_get_hit_run k d :
  k ∈ odict.keys d →
  ∃ v, odict.getitem k d = Some v ∧
    get (Some k) d = (Returns (Some v), touched k v d).
Proof.
  intros Hin. unfold get, odict.move_to_end. rewrite decide_True by done.
  destruct (odict.getitem_is_Some k d Hin) as [v Hv]. rewrite Hv.
  exists v. split; [done|].
  rewrite odict.getitem_snoc_last; [done|apply mru_not_in_without].
Qed.

Lemma mru_get_miss_run k d :
  k ∉ odict.keys d → get (Some k) d = (Returns None, d).
Proof. intros Hout. unfold get. by rewrite decide_False. Qed.

Lemma mru_put_new_room_run k v d :
  k ∉ odict.keys d → length d < MAX_ITEMS →
  put MAX_ITEMS format (Some k) (Some v) d = (Returns tt, d ++ [(k, v)], []).
Proof.
  intros Hout Hlt. unfold put. rewrite decide_False by done.
  rewrite decide_False by lia. by rewrite odict.setitem_new.
Qed.

Lemma mru_put_new_full_run k v d :
  k ∉ odict.keys d → MAX_ITEMS ≤ length d → d ≠ [] →
  ∃ kl vl r, d = r ++ [(kl, vl)] ∧
    put MAX_ITEMS format (Some k) (Some v) d =
      (Returns tt, r ++ [(k, v)], ["DISCARD: " +:+ format kl]).
Proof.
  intros Hout Hfull Hne. unfold put. rewrite decide_False by done.
  rewrite decide_True by done.
  destruct (odict.popitem d) as [[[kl vl] r]|] eqn:Hp.
  - apply odict.popitem_Some in Hp. exists kl, vl, r. split; [done|].
    rewrite odict.setitem_new; [done|]. intros Hin. apply Hout.
    rewrite Hp. unfold odict.keys in *. rewrite fmap_app, elem_of_app.
    by left.
  - by apply odict.popitem_None in Hp.
Qed.

Lemma touched_NoDup k v d :
  NoDup (odict.keys d) → NoDup (odict.keys (touched k v d)).
Proof.
  intros Hnd. unfold touched, odict.keys. rewrite fmap_app.
  apply NoDup_app. split; [by apply odict.keys_without_NoDup|].
  split; [|apply NoDup_singleton].
  intros x Hx ->%list_elem_of_singleton. by apply (mru_not_in_without k d).
Qed.

Lemma touched_length k v d :
  NoDup (odict.keys d) → k ∈ odict.keys d →
  length (touched k v d) = length d.
Proof.
  intros Hnd Hin. unfold touched. rewrite length_app. simpl.
  rewrite <-(odict.length_without k d) by done. lia.
Qed.

Lemma touched_getitem k k' v d :
  odict.getitem k' (touched k v d) =
    if decide (k' = k) then Some v else odict.getitem k' d.
Proof.
  unfold touched. case_decide as Hk; subst.
  - apply odict.getitem_snoc_last, mru_not_in_without.
  - rewrite odict.getitem_snoc_ne by done. by apply odict.getitem_without.
Qed.

Lemma mru_wf_step op d : mru_wf d → mru_wf (step MAX_ITEMS format op d).
Proof.
  intros [Hnd Hlen]. destruct op as [[k|] [v|]|[k|]]; simpl; try done.
  - destruct (decide (k ∈ odict.keys d)) as [Hin|Hout].
    { rewrite mru_put_stored_run by done. simpl.
      split; [by apply touched_NoDup|by rewrite touched_length]. }
    destruct (decide (length d < MAX_ITEMS)) as [Hlt|Hge].
    { rewrite mru_put_new_room_run by done. simpl.
      split; [by apply odict.keys_snoc_NoDup_2|].
      rewrite length_app. simpl. lia. }
    destruct (decide (d = [])) as [->|Hne].
    { unfold put. rewrite decide_False by done.
      by rewrite decide_True by (simpl in *; lia). }
    destruct (mru_put_new_full_run k v d) as (kl & vl & r & Hd & ->);
      [done|lia|done|]. simpl. subst d.
    assert (k ∉ odict.keys r) as Hk.
    { intros Hin. apply Hout. unfold odict.keys in *.
      rewrite fmap_app, elem_of_app. by left. }
    apply odict.keys_snoc_NoDup in Hnd as [Hnd _].
    rewrite length_app in Hlen. simpl in Hlen.
    split; [by apply odict.keys_snoc_NoDup_2|].
    rewrite length_app. simpl. lia.
  - destruct (decide (k ∈ odict.keys d)) as [Hin|Hout].
    + destruct (mru_get_hit_run k d Hin) as (v & _ & ->). simpl.
      split; [by apply touched_NoDup|by rewrite touched_length].
    + by rewrite mru_get_miss_run.
Qed.

Lemma mru_wf_after history : mru_wf (after MAX_ITEMS format history).
Proof.
  induction history as [|op history IH] using rev_ind.
  - split; [constructor|simpl; lia].
  - unfold after. rewrite foldl_app. simpl. by apply mru_wf_step.
Qed.

(** X10: after any sequence of calls the MRU cache holds no key twice and
    at most [MAX_ITEMS] keys. *)
Theorem mru_capacity history :
  NoDup (odict.keys (after MAX_ITEMS format history)) ∧
  length (after MAX_ITEMS format history) ≤ MAX_ITEMS.
Proof. apply mru_wf_after. Qed.

(** X11: the key of the latest use, a [put] with an item or a [get] that
    found it, is the one discarded when a new key is put into the full
    cache right after; the line printed names it. *)
Theorem mru_discards_most_recent history op k k' v' :
  let d := after MAX_ITEMS format history in
  let d1 := step MAX_ITEMS format op d in
  let d2 := step MAX_ITEMS format (Put (Some k') (Some v')) d1 in
  0 < MAX_ITEMS →
  (∃ v, op = Put (Some k) (Some v)) ∨ (op = Get (Some k) ∧ k ∈ odict.keys d) →
  k' ∉ odict.keys d1 → length d1 = MAX_ITEMS →
  put MAX_ITEMS format (Some k') (Some v') d1 =
    (Returns tt, d2, ["DISCARD: " +:+ format k]) ∧
  (k ∉ odict.keys d2) ∧ odict.getitem k' d2 = Some v'.
Proof.
  intros d d1 d2 Hpos Huse Hk' Hlen.
  assert (mru_wf d1) as [Hnd1 _].
  { subst d1. apply mru_wf_step, mru_wf_after. }
  assert (∃ r v, d1 = r ++ [(k, v)]) as (r & v & Hr).
  { subst d1. destruct Huse as [[v ->]|[-> Hin]]; simpl.
    - destruct (decide (k ∈ odict.keys d)) as [Hin|Hout].
      { rewrite mru_put_stored_run by done. simpl. unfold touched. eauto. }
      destruct (decide (length d < MAX_ITEMS)) as [Hlt|Hge].
      { rewrite mru_put_new_room_run by done. simpl. eauto. }
      destruct (mru_put_new_full_run k v d) as (kl & vl & r & Hd & ->);
        [done|lia| |by simpl; eauto].
      intros Hnil. rewrite Hnil in Hge. simpl in Hge. lia.
    - destruct (mru_get_hit_run k d Hin) as (v & _ & ->). simpl.
      unfold touched. eauto. }
  destruct (mru_put_new_full_run k' v' d1) as (kl & vl & r' & Hd1 & Hput);
    [done|lia| |].
  { intros Hnil. rewrite Hnil in Hlen. simpl in Hlen. lia. }
  rewrite Hr in Hd1. apply app_inj_tail in Hd1 as [<- [= <- <-]].
  subst d2. simpl. rewrite Hput. simpl. split; [done|].
  rewrite Hr in Hnd1, Hk'. apply odict.keys_snoc_NoDup in Hnd1 as [_ Hk].
  simpl in Hk. split.
  - unfold odict.keys in *. rewrite fmap_app, elem_of_app.
    intros [?|Heq%list_elem_of_singleton]; [done|]. simpl in Heq. subst k'.
    apply Hk'. rewrite fmap_app, elem_of_app. right. by left.
  - apply odict.getitem_snoc_last. intros Hin. apply Hk'.
    unfold odict.keys in *. rewrite fmap_app, elem_of_app. by left.
Qed.

(** X12: [put] of a stored key with an item never discards, also on a full
    cache: it prints nothing, the key gets the new item and becomes the
    last pair, the other keys keep their items and the number of keys
    stays. *)
Theorem mru_put_stored history k v :
  let d := after MAX_ITEMS format history in
  let d' := step MAX_ITEMS format (Put (Some k) (Some v)) d in
  k ∈ odict.keys d →
  put MAX_ITEMS format (Some k) (Some v) d = (Returns tt, d', []) ∧
  last d' = Some (k, v) ∧
  (∀ k', k' ≠ k → odict.getitem k' d' = odict.getitem k' d) ∧
  length d' = length d.
Proof.
  intros d d' Hin. destruct (mru_wf_after history) as [Hnd _]. fold d in Hnd.
  subst d'. simpl. rewrite mru_put_stored_run by done. simpl.
  split; [done|]. split; [by unfold touched; rewrite last_snoc|].
  split; [|by apply touched_length].
  intros k' Hne. by rewrite touched_getitem, decide_False.
Qed.

(** X13: [get] never raises and returns the item of the key, [None] for
    [None] or a key that is not stored; it leaves the item of every key
    and the number of keys as they were, and a key it finds becomes the
    last pair. *)
Theorem mru_get history (key : option K) :
  let d := after MAX_ITEMS format history in
  let d' := step MAX_ITEMS format (Get key) d in
  get key d = (Returns (key ≫= λ k, odict.getitem k d), d') ∧
  (∀ k', odict.getitem k' d' = odict.getitem k' d) ∧
  length d' = length d ∧
  (∀ k v, key = Some k → odict.getitem k d = Some v → last d' = Some (k, v)).
Proof.
  intros d d'. destruct (mru_wf_after history) as [Hnd _]. fold d in Hnd.
  subst d'. simpl. destruct key as [k|]; simpl; [|done].
  destruct (decide (k ∈ odict.keys d)) as [Hin|Hout].
  - destruct (mru_get_hit_run k d Hin) as (v & Hv & ->). simpl.
    rewrite Hv. split; [done|]. split; [|split].
    + intros k'. rewrite touched_getitem. case_decide; congruence.
    + by apply touched_length.
    + intros k0 v0 [= <-] Hv0. unfold touched. rewrite last_snoc. congruence.
  - rewrite mru_get_miss_run by done. simpl.
    apply odict.getitem_None_keys in Hout. rewrite Hout.
    do 3 (split; [done|]). intros k0 v0 [= <-]. congruence.
Qed.

(** X14: with a positive [MAX_ITEMS], [put] with a key and an item never
    raises, whatever the cache holds, and the key is stored with the item
    afterwards. *)
Theorem mru_put_then_get k v d :
  let d' := (put MAX_ITEMS format (Some k) (Some v) d).1.2 in
  0 < MAX_ITEMS →
  (put MAX_ITEMS format (Some k) (Some v) d).1.1 = Returns tt ∧
  odict.getitem k d' = Some v.
Proof.
  intros d' Hpos. subst d'.
  destruct (decide (k ∈ odict.keys d)) as [Hin|Hout].
  { rewrite mru_put_stored_run by done. simpl.
    by rewrite touched_getitem, decide_True. }
  destruct (decide (length d < MAX_ITEMS)) as [Hlt|Hge].
  { rewrite mru_put_new_room_run by done. simpl.
    by rewrite odict.getitem_snoc_last. }
  destruct (mru_put_new_full_run k v d) as (kl & vl & r & Hd & ->);
    [done|lia| |].
  { intros ->. simpl in *. lia. }
  simpl. split; [done|]. apply odict.getitem_snoc_last. intros Hin.
  apply Hout. rewrite Hd. unfold odict.keys in *.
  rewrite fmap_app, elem_of_app. by left.
Qed.
End mru_properties.

(** ** The MRU cache on an example: room for two keys, ["A"] then ["B"]
    are put. *)

Definition mru_two_puts : list (@call string nat) :=
  [Put (Some "A") (Some 1); Put (Some "B") (Some 2)].

(** X11 on the example: ["A"] is read, then ["C"] is put: ["A"] goes. *)
Lemma mru_discards_most_recent_witness :
  let d := after 2 id mru_two_puts in
  let d1 := step 2 id (Get (Some "A")) d in
  let d2 := step 2 id (Put (Some "C") (Some 3)) d1 in
  put 2 id (Some "C") (Some 3) d1 =
    (Returns tt, d2, ["DISCARD: " +:+ id "A"]) ∧
  ("A" ∉ odict.keys d2) ∧ odict.getitem "C" d2 = Some 3.
Proof.
  apply (mru_discards_most_recent 2 id mru_two_puts (Get (Some "A")) "A" "C" 3).
  - lia.
  - right. split; [done|]. vm_compute. by left.
  - vm_compute. intros Hin. by repeat (apply elem_of_cons in Hin as [?|Hin]);
      try apply elem_of_nil in Hin.
  - vm_compute. reflexivity.
Defined.

(** X12 on the example: ["A"] is put again into the full cache. *)
Lemma mru_put_stored_witness :
  let d := after 2 id mru_two_puts in
  let d' := step 2 id (Put (Some "A") (Some 5)) d in
  put 2 id (Some "A") (Some 5) d = (Returns tt, d', []) ∧
  last d' = Some ("A", 5) ∧
  (∀ k', k' ≠ "A" → odict.getitem k' d' = odict.getitem k' d) ∧
  length d' = length d.
Proof.
  apply (mru_put_stored 2 id mru_two_puts "A" 5). vm_compute. by left.
Defined.

(** X14 on the example: ["C"] is put into the full cache. *)
Lemma mru_put_then_get_witness :
  let d := after 2 id mru_two_puts in
  let d' := (put 2 id (Some "C") (Some 3) d).1.2 in
  (put 2 id (Some "C") (Some 3) d).1.1 = Returns tt ∧
  odict.getitem "C" d' = Some 3.
Proof. apply (mru_put_then_get 2 id "C" 3 (after 2 id mru_two_puts)). lia. Defined.
End mru_cache.

(** * The basic cache of [0x01-caching/0-basic_cache.py]

    The object is its dict [cache_data], whose order no method consults.
    The dict is created by [BaseCaching.__init__], outside the sources at
    hand: the properties below hold from any dict. *)

Module basic_cache.
Import lfu_cache (call, Put, Get).

Section BasicCache.
Context {K : Type} `{Countable K} {V : Type}.
Implicit Types (cache_data : gmap K V).

(** [BasicCache.put]: it returns [None] and never raises. *)
Definition put (key : option K) (item : option V) cache_data : gmap K V :=
  match key, item with
  | Some key, Some item => <[key := item]> cache_data
  | _, _ => cache_data
  end.

(** [BasicCache.get]: it changes nothing. *)
Definition get (key : option K) cache_data : option V :=
  match key with
  | None => None
  | Some key => cache_data !! key
  end.

Definition step (c : call) cache_data : gmap K V :=
  match c with
  | Put key item => put key item cache_data
  | Get key => cache_data
  end.

(** [cache_data] after a history of calls (oldest first) from [d0]. *)
Definition run (history : list call) (d0 : gmap K V) : gmap K V :=
  foldl (λ s c, step c s) d0 history.

(** The item of the latest [put] of key [k] with an item in a history. *)
Definition last_put (k : K) (history : list (@call K V)) : option V :=
  foldl (λ o c,
           match c with
           | Put (Some k') (Some v) => if decide (k' = k) then Some v else o
           | _ => o
           end) None history.

(** X15: the basic cache never forgets: after any history of calls [get]
    returns, for every key, the item of the latest [put] of that key with
    an item, and the item the dict held at first when there was no such
    [put]; no key ever leaves the dict. *)
Theorem basic_cache_get_latest history (d0 : gmap K V) k :
  get (Some k) (run history d0) =
    match last_put k history with
    | Some v => Some v
    | None => d0 !! k
    end ∧
  dom d0 ⊆ dom (run history d0).
Proof.
  induction history as [|op history [IH1 IH2]] using rev_ind; [done|].
  unfold run, last_put in *. rewrite !foldl_app. simpl in *.
  destruct op as [[k'|] [v|]|?]; simpl; try done. split.
  - destruct (decide (k' = k)) as [->|Hne].
    + by rewrite lookup_insert_eq.
    + by rewrite lookup_insert_ne.
  - rewrite dom_insert. set_solver.
Qed.
End BasicCache.
End basic_cache.

(** * Pagination: [0x00-pagination/1-simple_pagination.py]

    Python integers are [Z].  The rows that [csv.reader] yields for
    [DATA_FILE] when the file is read are an argument, [file]: a row is a
    list of strings. *)

Module simple_pagination.
Local Open Scope Z_scope.

Abbreviation row := (list string).

(** [index_range] *)
Definition index_range (page page_size : Z) : Z * Z :=
  let start_index := (page - 1) * page_size in
  let end_index := start_index + page_size in
  (start_index, end_index).

(** A bound of a slice on a list of length [len]: a negative bound counts
    from the end, and every bound is clipped to the list. *)
Definition slice_bound (len i : Z) : Z :=
  if i <? 0 then Z.max 0 (i + len) else Z.min i len.

(** [l[start:stop]] *)
Definition py_slice {A} (l : list A) (start stop : Z) : list A :=
  let len := Z.of_nat (length l) in
  let a := slice_bound len start in
  let b := slice_bound len stop in
  take (Z.to_nat (b - a)) (drop (Z.to_nat a) l).

(** The attribute [__dataset] of a [Server]: [None] until the file has
    been read. *)
Record Server := mkServer { __dataset : option (list row) }.

(** [Server.__init__] *)
Definition init : Server := mkServer None.

(** [Server.dataset]: the cached rows, read from the file at the first
    call, without the header row. *)
Definition dataset (file : list row) (self : Server) : list row * Server :=
  match __dataset self with
  | None =>
      let dataset := file in
      (py_slice dataset 1 (Z.of_nat (length dataset)),
       mkServer (Some (py_slice dataset 1 (Z.of_nat (length dataset)))))
  | Some rows => (rows, self)
  end.

(** How a call of [get_page] ends. *)
Inductive outcome (A : Type) :=
| Returns (a : A)
| AssertionError (message : string).
Arguments Returns {A} a.
Arguments AssertionError {A} message.

(** [Server.get_page] *)
Definition get_page (file : list row) (page page_size : Z) (self : Server) :
    outcome (list row) * Server :=
  if negb (0 <? page) then
    (AssertionError "page must be an integer greater than 0", self)
  else if negb (0 <? page_size) then
    (AssertionError "page_size must be an integer greater than 0", self)
  else
    let '(start_index, end_index) := index_range page page_size in
    let '(dataset, self) := dataset file self in
    if Z.of_nat (length dataset) <=? start_index then (Returns [], self)
    else (Returns (py_slice dataset start_index end_index), self).

(** The rows a call returned, none when it raised. *)
Definition rows_of (r : outcome (list row) * Server) : list row :=
  match r.1 with
  | Returns rows => rows
  | AssertionError _ => []
  end.

(** ** Properties of the simple pagination *)

(** A slice between two bounds that are not negative. *)
Lemma py_slice_nonneg {A} (l : list A) (a b : Z) :
  0 ≤ a → 0 ≤ b →
  py_slice l a b = take (Z.to_nat (b - a)) (drop (Z.to_nat a) l).
Proof.
  intros Ha Hb. unfold py_slice, slice_bound.
  rewrite (proj2 (Z.ltb_ge a 0)), (proj2 (Z.ltb_ge b 0)) by done.
  destruct (decide (a ≤ Z.of_nat (length l))) as [Hal|Hal].
  - rewrite (Z.min_l a) by done.
    destruct (decide (b ≤ Z.of_nat (length l))) as [Hbl|Hbl].
    + by rewrite (Z.min_l b).
    + rewrite (Z.min_r b) by lia.
      rewrite !take_ge; [done|rewrite length_drop; lia..].
  - rewrite (Z.min_r a) by lia. rewrite !drop_ge by lia.
    by rewrite !take_nil.
Qed.

(** The rows a server works with: the cached ones, or those of the file
    without its header. *)
Definition rows (file : list row) (self : Server) : list row :=
  (dataset file self).1.

Lemma get_page_run file page page_size self :
  0 < page → 0 < page_size →
  get_page file page page_size self =
    (Returns (take (Z.to_nat page_size)
                (drop (Z.to_nat ((page - 1) * page_size)) (rows file self))),
     (dataset file self).2).
Proof.
  intros Hp Hs. unfold get_page, rows, index_range.
  rewrite (proj2 (Z.ltb_lt 0 page)), (proj2 (Z.ltb_lt 0 page_size)) by done.
  simpl. destruct (dataset file self) as [D self'] eqn:HD. simpl.
  destruct (Z.leb_spec (Z.of_nat (length D)) ((page - 1) * page_size)).
  - rewrite drop_ge by lia. by rewrite take_nil.
  - rewrite py_slice_nonneg by nia. do 3 f_equal. lia.
Qed.


(** X17: a page or a page size that is not positive makes [get_page] fail
    its assertion before the dataset is looked at: the server is left as
    it was, and a file not yet read stays unread. *)
Theorem get_page_rejects file page page_size self :
  page ≤ 0 ∨ page_size ≤ 0 →
  ∃ message,
    get_page file page page_size self = (AssertionError message, self).
Proof.
  intros Hbad. unfold get_page.
  destruct (Z.ltb_spec 0 page); simpl; [|by eauto].
  destruct (Z.ltb_spec 0 page_size); simpl; [lia|by eauto].
Qed.

(** X18: the pages tile the dataset: with a positive page size, pages 1
    to [n] one after the other are the first [n * page_size] rows, hence
    the whole dataset once [n * page_size] reaches its length. *)
Theorem pages_cover_dataset file page_size self (n : nat) :
  let D := rows file self in
  let pages :=
    concat (map (λ p : nat, rows_of (get_page file (Z.of_nat p) page_size self))
              (seq 1 n)) in
  0 < page_size →
  pages = take (n * Z.to_nat page_size) D ∧
  (Z.of_nat (length D) ≤ Z.of_nat n * page_size → pages = D).
Proof.
  intros D pages Hs.
  assert (pages = take (n * Z.to_nat page_size) D) as Hpages.
  { subst pages. induction n as [|n IH]; [by rewrite take_0|].
    rewrite seq_S, map_app, concat_app, IH. simpl. rewrite app_nil_r.
    unfold rows_of. rewrite get_page_run by lia. simpl. fold D.
    replace (Z.to_nat ((Z.of_nat (S n) - 1) * page_size))
      with (n * Z.to_nat page_size)%nat by lia.
    rewrite take_take_drop. f_equal. lia. }
  split; [done|]. intros Hall. rewrite Hpages. apply take_ge. lia.
Qed.

(** X19: the dataset is read once: the first call of [dataset] on a new
    server returns the rows of the file without the header row and keeps
    them, and every later call returns the kept rows, whatever the file
    holds by then. *)
Theorem dataset_is_cached file file' self :
  dataset file init = (drop 1 file, mkServer (Some (drop 1 file))) ∧
  dataset file' (dataset file self).2 = dataset file self.
Proof.
  split.
  - unfold dataset. simpl. rewrite py_slice_nonneg by lia.
    rewrite take_ge; [done|]. rewrite length_drop. lia.
  - unfold dataset. by destruct self as [[D|]].
Qed.

(** ** The simple pagination on an example: a file with a header row and
    three rows. *)

Definition names_csv : list row :=
  [["Year"; "Name"]; ["2016"; "Olivia"]; ["2016"; "Chloe"]; ["2016"; "Sophia"]].


(** X17 on the example: page 0. *)
Lemma get_page_rejects_witness :
  ∃ message, get_page names_csv 0 2 init = (AssertionError message, init).
Proof. apply (get_page_rejects names_csv 0 2 init). left. lia. Defined.

(** X18 on the example: two pages of size 2 are the three rows. *)
Lemma pages_cover_dataset_witness :
  let D := rows names_csv init in
  let pages :=
    concat (map (λ p : nat, rows_of (get_page names_csv (Z.of_nat p) 2 init))
              (seq 1 2)) in
  pages = take (2 * Z.to_nat 2) D ∧
  (Z.of_nat (length D) ≤ Z.of_nat 2 * 2 → pages = D).
Proof. apply (pages_cover_dataset names_csv 2 init 2). lia. Defined.
End simple_pagination.

(** * Pagination that survives deletions:
      [0x00-pagination/3-hypermedia_del_pagination.py]

    The server keeps, besides the rows, a dict from positions to rows; its
    user deletes entries of that dict between calls. *)

Module hypermedia_del_pagination.
Import simple_pagination (py_slice, outcome, Returns, AssertionError).
Local Open Scope Z_scope.

Abbreviation row := (list string).

(** The attributes [__dataset] and [__indexed_dataset] of a [Server]. *)
Record Server := mkServer {
  __dataset : option (list row);
  __indexed_dataset : option (gmap Z row)
}.

(** [Server.__init__] *)
Definition init : Server := mkServer None None.

(** [Server.dataset] *)
Definition dataset (file : list row) (self : Server) : list row * Server :=
  match __dataset self with
  | None =>
      let dataset := file in
      (py_slice dataset 1 (Z.of_nat (length dataset)),
       mkServer (Some (py_slice dataset 1 (Z.of_nat (length dataset))))
         (__indexed_dataset self))
  | Some rows => (rows, self)
  end.

(** [{i: dataset[i] for i in range(len(dataset))}]; the positions of
    [range(len(dataset))] are positions of the list, so that [dataset[i]]
    raises no [IndexError]. *)
Definition index_rows (dataset : list row) : gmap Z row :=
  foldl (λ d (i : nat),
           match dataset !! i with
           | Some r => <[Z.of_nat i := r]> d
           | None => d
           end) ∅ (seq 0 (length dataset)).

(** [Server.indexed_dataset] (the truncated copy of line 35 is not
    used). *)
Definition indexed_dataset (file : list row) (self : Server) :
    gmap Z row * Server :=
  match __indexed_dataset self with
  | None =>
      let '(dataset, self) := dataset file self in
      let d := index_rows dataset in
      (d, mkServer (__dataset self) (Some d))
  | Some d => (d, self)
  end.

(** The first loop of [get_hyper_index] (lines 65 to 69), at most [fuel]
    rounds of it: it returns [next_index], [current_size] and [data]. *)
Fixpoint collect (fuel : nat) (indexed_dataset : gmap Z row) (page_size : Z)
    (next_index current_size : Z) (data : list row) : Z * Z * list row :=
  match fuel with
  | O => (next_index, current_size, data)
  | S fuel =>
      if (current_size <? page_size)
         && (next_index <? Z.of_nat (size indexed_dataset)) then
        match indexed_dataset !! next_index with
        | Some r =>
            collect fuel indexed_dataset page_size
              (next_index + 1) (current_size + 1) (data ++ [r])
        | None =>
            collect fuel indexed_dataset page_size
              (next_index + 1) current_size data
        end
      else (next_index, current_size, data)
  end.

(** The second loop (lines 72 to 74), at most [fuel] rounds of it. *)
Fixpoint skip_deleted (fuel : nat) (indexed_dataset : gmap Z row)
    (next_index : Z) : Z :=
  match fuel with
  | O => next_index
  | S fuel =>
      if (next_index <? Z.of_nat (size indexed_dataset))
         && negb (bool_decide (is_Some (indexed_dataset !! next_index))) then
        skip_deleted fuel indexed_dataset (next_index + 1)
      else next_index
  end.

(** Each round of either loop moves [next_index] one step towards
    [len(indexed_dataset)]: that many rounds end the loop. *)
Definition rounds (indexed_dataset : gmap Z row) (next_index : Z) : nat :=
  Z.to_nat (Z.of_nat (size indexed_dataset) - next_index).

(** The dict that [get_hyper_index] returns. *)
Record Page := mkPage {
  index : Z;
  next_index : Z;
  page_size : Z;
  data : list row
}.

(** [Server.get_hyper_index].  The first assertion calls
    [indexed_dataset] only once it knows an index that is not negative. *)
Definition get_hyper_index (file : list row) (index : option Z)
    (page_size : Z) (self : Server) : outcome Page * Server :=
  let bad_index :=
    "index must be a valid integer within the dataset range"%string in
  match index with
  | None => (AssertionError bad_index, self)
  | Some index =>
      if negb (0 <=? index) then (AssertionError bad_index, self)
      else
        let '(d, self) := indexed_dataset file self in
        if negb (index <? Z.of_nat (size d)) then
          (AssertionError bad_index, self)
        else if negb (0 <? page_size) then
          (AssertionError "page_size must be an integer greater than 0", self)
        else
          let '(indexed_dataset, self) := indexed_dataset file self in
          let '(next_index, current_size, data) :=
            collect (rounds indexed_dataset index) indexed_dataset page_size
              index 0 [] in
          let next_index :=
            skip_deleted (rounds indexed_dataset next_index) indexed_dataset
              next_index in
          (Returns (mkPage index next_index current_size data), self)
  end.

(** ** Properties of the pagination that survives deletions *)

(** The dict of the first [n] positions of a dataset. *)
Lemma index_rows_prefix (D : list row) (n : nat) :
  (n ≤ length D)%nat →
  let d := foldl (λ d (i : nat),
                    match D !! i with
                    | Some r => <[Z.of_nat i := r]> d
                    | None => d
                    end) (∅ : gmap Z row) (seq 0 n) in
  (∀ i, d !! i = if decide (0 ≤ i < Z.of_nat n) then D !! Z.to_nat i else None) ∧
  size d = n.
Proof.
  induction n as [|n IH]; intros Hn d.
  - subst d. simpl. split; [|done]. intros i. rewrite lookup_empty.
    case_decide; [lia|done].
  - subst d. rewrite seq_S, foldl_app. simpl.
    destruct IH as [IHl IHs]; [lia|].
    destruct (lookup_lt_is_Some_2 D n) as [r Hr]; [lia|]. rewrite Hr.
    split.
    + intros i. destruct (decide (i = Z.of_nat n)) as [->|Hne].
      * rewrite lookup_insert_eq, decide_True by lia.
        by rewrite Nat2Z.id.
      * rewrite lookup_insert_ne by done. rewrite IHl.
        repeat case_decide; (done || lia).
    + rewrite map_size_insert_None; [by rewrite IHs|].
      rewrite IHl. case_decide; [lia|done].
Qed.

Lemma index_rows_lookup (D : list row) (i : Z) :
  index_rows D !! i =
    if decide (0 ≤ i < Z.of_nat (length D)) then D !! Z.to_nat i else None.
Proof. by apply (index_rows_prefix D (length D)). Qed.

Lemma index_rows_size (D : list row) : size (index_rows D) = length D.
Proof. by apply (index_rows_prefix D (length D)). Qed.

(** X20: the dict of a dataset maps each position, counted from 0, to the
    row at that position and holds nothing else; a new server builds it
    from the rows of the file without the header row. *)
Theorem indexed_dataset_positions (file D : list row) (i : Z) :
  (index_rows D !! i =
     if decide (0 ≤ i < Z.of_nat (length D)) then D !! Z.to_nat i else None) ∧
  size (index_rows D) = length D ∧
  (indexed_dataset file init).1 = index_rows (drop 1 file).
Proof.
  split; [apply index_rows_lookup|]. split; [apply index_rows_size|].
  unfold indexed_dataset, dataset. simpl.
  rewrite simple_pagination.py_slice_nonneg by lia.
  rewrite take_ge; [done|]. rewrite length_drop. lia.
Qed.

(** The dict, once built, is returned as it is. *)
Lemma indexed_dataset_cached file file' self :
  indexed_dataset file' (indexed_dataset file self).2 =
    indexed_dataset file self.
Proof.
  unfold indexed_dataset. destruct self as [ds [d|]]; simpl; [done|].
  by destruct (dataset file _) as [D self'].
Qed.

(** The rows of the entries of [d] at the positions from [a], [m] of
    them. *)
Definition rows_between (d : gmap Z row) (a m : Z) : list row :=
  omap (λ i, d !! i) (seqZ a m).

Lemma rows_between_step d a m :
  0 < m →
  rows_between d a m =
    match d !! a with
    | Some r => r :: rows_between d (a + 1) (m - 1)
    | None => rows_between d (a + 1) (m - 1)
    end.
Proof.
  intros Hm. unfold rows_between. rewrite seqZ_cons by done. simpl.
  replace (Z.succ a) with (a + 1) by lia.
  replace (Z.pred m) with (m - 1) by lia. by destruct (d !! a).
Qed.

(** What the first loop computes, and that it ends with its condition
    false when it has that many rounds. *)
Lemma collect_spec d ps fuel n c rs n' c' rs' :
  Z.of_nat (size d) - n ≤ Z.of_nat fuel →
  collect fuel d ps n c rs = (n', c', rs') →
  n ≤ n' ∧ n' ≤ Z.max n (Z.of_nat (size d)) ∧
  rs' = rs ++ rows_between d n (n' - n) ∧
  c' = c + Z.of_nat (length (rows_between d n (n' - n))) ∧
  ¬ (c' < ps ∧ n' < Z.of_nat (size d)) ∧
  (c ≤ ps → c' ≤ ps).
Proof.
  revert n c rs. induction fuel as [|fuel IH]; intros n c rs Hfuel; simpl.
  - intros [= <- <- <-]. rewrite Z.sub_diag. unfold rows_between. simpl.
    rewrite app_nil_r. repeat split; lia.
  - destruct (Z.ltb_spec c ps) as [Hc|Hc]; simpl;
      [destruct (Z.ltb_spec n (Z.of_nat (size d))) as [Hn|Hn]; simpl|].
    + destruct (d !! n) as [r|] eqn:Hr; intros Hcol;
        apply IH in Hcol as (H1 & H2 & H3 & H4 & H5 & H6); try lia;
        rewrite (rows_between_step d n (n' - n)), Hr by lia;
        replace (n' - n - 1) with (n' - (n + 1)) by lia.
      * rewrite H3, H4, <-app_assoc. simpl. repeat split; lia.
      * rewrite H3, H4. repeat split; lia.
    + intros [= <- <- <-]. rewrite Z.sub_diag. unfold rows_between. simpl.
      rewrite app_nil_r. repeat split; lia.
    + intros [= <- <- <-]. rewrite Z.sub_diag. unfold rows_between. simpl.
      rewrite app_nil_r. repeat split; lia.
Qed.

(** What the second loop computes. *)
Lemma skip_deleted_spec d fuel n :
  Z.of_nat (size d) - n ≤ Z.of_nat fuel →
  let n' := skip_deleted fuel d n in
  n ≤ n' ∧ n' ≤ Z.max n (Z.of_nat (size d)) ∧
  (∀ i, n ≤ i < n' → d !! i = None) ∧
  (n' < Z.of_nat (size d) → is_Some (d !! n')).
Proof.
  revert n. induction fuel as [|fuel IH]; intros n Hfuel; simpl.
  - repeat split; try lia.
  - destruct (Z.ltb_spec n (Z.of_nat (size d))) as [Hn|Hn]; simpl;
      [|repeat split; lia].
    case_bool_decide as Hd; simpl; [repeat split; (done || lia)|].
    destruct (IH (n + 1)) as (H1 & H2 & H3 & H4); [lia|].
    repeat split; [lia|lia| |done].
    intros i Hi. destruct (decide (i = n)) as [->|Hne].
    + by apply eq_None_not_Some.
    + apply H3. lia.
Qed.

(** [get_hyper_index] with a valid index and a positive page size. *)
Lemma get_hyper_index_run file i ps self :
  let d := (indexed_dataset file self).1 in
  0 ≤ i < Z.of_nat (size d) → 0 < ps →
  ∃ j c rs,
    collect (rounds d i) d ps i 0 [] = (j, c, rs) ∧
    get_hyper_index file (Some i) ps self =
      (Returns (mkPage i (skip_deleted (rounds d j) d j) c rs),
       (indexed_dataset file self).2).
Proof.
  intros d Hi Hps. unfold get_hyper_index.
  rewrite (proj2 (Z.leb_le 0 i)) by lia. simpl.
  pose proof (indexed_dataset_cached file file self) as Hc.
  destruct (indexed_dataset file self) as [d0 self'] eqn:Hd. simpl in *.
  subst d. rewrite (proj2 (Z.ltb_lt i _)) by lia. simpl.
  rewrite (proj2 (Z.ltb_lt 0 ps)) by lia. simpl. rewrite Hc.
  destruct (collect (rounds d0 i) d0 ps i 0 []) as [[j c] rs] eqn:Hcol.
  by exists j, c, rs.
Qed.

(** X21: whatever entries were deleted, [get_hyper_index] with a valid
    index and a positive page size returns: the rows of the entries that
    are left from [index] up to some position [j], in order, [page_size]
    of them unless [j] is the number of entries left; their number as
    ["page_size"]; and as ["next_index"] the first position from [j] on
    that holds an entry, or the number of entries left when it meets none
    below that number. *)
Theorem hyper_index_under_deletions file i ps self :
  let d := (indexed_dataset file self).1 in
  0 ≤ i < Z.of_nat (size d) → 0 < ps →
  ∃ j p,
    get_hyper_index file (Some i) ps self =
      (Returns p, (indexed_dataset file self).2) ∧
    index p = i ∧
    data p = rows_between d i (j - i) ∧
    page_size p = Z.of_nat (length (data p)) ∧
    page_size p ≤ ps ∧
    (page_size p < ps → j = Z.of_nat (size d)) ∧
    i ≤ j ∧ j ≤ next_index p ∧ next_index p ≤ Z.of_nat (size d) ∧
    (∀ k, j ≤ k < next_index p → d !! k = None) ∧
    (next_index p < Z.of_nat (size d) → is_Some (d !! next_index p)).
Proof.
  intros d Hi Hps.
  destruct (get_hyper_index_run file i ps self Hi Hps)
    as (j & c & rs & Hcol & Hrun). fold d in Hcol, Hrun.
  apply collect_spec in Hcol as (H1 & H2 & H3 & H4 & H5 & H6);
    [|unfold rounds; lia].
  destruct (skip_deleted_spec d (rounds d j) j) as (S1 & S2 & S3 & S4);
    [unfold rounds; lia|].
  exists j, (mkPage i (skip_deleted (rounds d j) d j) c rs).
  simpl in *. subst rs. split; [done|]. split; [done|]. split; [done|].
  split; [lia|]. split; [lia|]. split; [lia|]. split; [done|].
  split; [done|]. split; [lia|]. split; done.
Qed.

(** X22: a row comes back only from a position below the number of
    entries left: with a valid index and a positive page size every row
    of ["data"] is the entry of some position from [index] on and below
    [len(indexed_dataset)], so that after a deletion the entries at the
    last positions are out of reach. *)
Theorem hyper_index_reach file i ps self r :
  let d := (indexed_dataset file self).1 in
  0 ≤ i < Z.of_nat (size d) → 0 < ps →
  ∃ p, (get_hyper_index file (Some i) ps self).1 = Returns p ∧
    (r ∈ data p → ∃ k, i ≤ k < Z.of_nat (size d) ∧ d !! k = Some r).
Proof.
  intros d Hi Hps.
  destruct (get_hyper_index_run file i ps self Hi Hps)
    as (j & c & rs & Hcol & Hrun). fold d in Hcol, Hrun.
  apply collect_spec in Hcol as (H1 & H2 & H3 & _);
    [|unfold rounds; lia].
  rewrite Hrun. simpl. eexists. split; [done|]. simpl. subst rs. simpl.
  unfold rows_between. intros (k & Hk & Hr)%list_elem_of_omap.
  apply elem_of_seqZ in Hk. exists k. split; [lia|done].
Qed.

(** X23: an index that is missing, negative or not below the number of
    entries, or a page size that is not positive, makes [get_hyper_index]
    fail an assertion. *)
Theorem hyper_index_rejects file (i : option Z) ps self :
  let d := (indexed_dataset file self).1 in
  (i = None ∨ (∃ n, i = Some n ∧ (n < 0 ∨ Z.of_nat (size d) ≤ n)) ∨ ps ≤ 0) →
  ∃ message, (get_hyper_index file i ps self).1 = AssertionError message.
Proof.
  intros d Hbad. unfold get_hyper_index. destruct i as [n|]; [|by eauto].
  destruct (Z.leb_spec 0 n); simpl; [|by eauto].
  destruct (indexed_dataset file self) as [d0 self'] eqn:Hd. simpl in *.
  subst d. destruct (Z.ltb_spec n (Z.of_nat (size d0))); simpl; [|by eauto].
  destruct (Z.ltb_spec 0 ps); simpl; [|by eauto].
  destruct Hbad as [?|[(? & [= <-] & ?)|?]]; (done || lia).
Qed.

Lemma rows_between_all (D : list row) (m : nat) (a : Z) :
  0 ≤ a → a + Z.of_nat m ≤ Z.of_nat (length D) →
  rows_between (index_rows D) a (Z.of_nat m) = take m (drop (Z.to_nat a) D).
Proof.
  revert a. induction m as [|m IH]; intros a Ha Hm; [done|].
  rewrite rows_between_step by lia. rewrite index_rows_lookup.
  rewrite decide_True by lia.
  destruct (lookup_lt_is_Some_2 D (Z.to_nat a)) as [r Hr]; [lia|].
  rewrite Hr, (drop_S D r _ Hr). simpl. f_equal.
  replace (Z.of_nat (S m) - 1) with (Z.of_nat m) by lia.
  rewrite IH by lia. do 2 f_equal. lia.
Qed.

(** X24: while nothing has been deleted, [get_hyper_index] with a valid
    index and a positive page size returns the rows of the dataset from
    [index] on, at most [page_size] of them, their number as
    ["page_size"], and as ["next_index"] the position behind the last of
    them: asking again at ["next_index"] continues where the page
    ended. *)
Theorem hyper_index_without_deletions file (D : list row) i ps self :
  (indexed_dataset file self).1 = index_rows D →
  0 ≤ i < Z.of_nat (length D) → 0 < ps →
  let rs := take (Z.to_nat ps) (drop (Z.to_nat i) D) in
  get_hyper_index file (Some i) ps self =
    (Returns (mkPage i (Z.min (i + ps) (Z.of_nat (length D)))
                (Z.of_nat (length rs)) rs),
     (indexed_dataset file self).2).
Proof.
  intros Hd Hi Hps rs. pose proof (index_rows_size D) as Hsz.
  destruct (get_hyper_index_run file i ps self)
    as (j & c & rs' & Hcol & Hrun); [rewrite Hd; lia|done|].
  rewrite Hd in Hcol, Hrun. rewrite Hrun. clear Hrun.
  set (d := index_rows D) in *.
  apply collect_spec in Hcol as (H1 & H2 & H3 & H4 & H5 & H6);
    [|unfold rounds; lia].
  destruct (skip_deleted_spec d (rounds d j) j) as (S1 & S2 & S3 & S4);
    [unfold rounds; lia|].
  set (j' := skip_deleted (rounds d j) d j) in *. simpl in H3.
  assert (rows_between d i (j - i) = take (Z.to_nat (j - i)) (drop (Z.to_nat i) D))
    as Hrows.
  { replace (j - i) with (Z.of_nat (Z.to_nat (j - i))) at 1 by lia.
    apply rows_between_all; lia. }
  rewrite Hrows in H3, H4. rewrite length_take, length_drop in H4.
  assert (j = Z.min (i + ps) (Z.of_nat (length D))) as Hj by lia.
  assert (j' = j) as ->.
  { destruct (decide (j < j')) as [Hlt|?]; [|lia]. exfalso.
    specialize (S3 j). unfold d in S3. rewrite index_rows_lookup in S3.
    rewrite decide_True in S3 by lia.
    destruct (lookup_lt_is_Some_2 D (Z.to_nat j)) as [r Hr]; [lia|].
    rewrite Hr in S3. discriminate S3. lia. }
  assert (rs' = rs) as ->.
  { rewrite H3. subst rs.
    destruct (decide (i + ps ≤ Z.of_nat (length D))).
    - do 2 f_equal. lia.
    - rewrite !take_ge; [done|rewrite length_drop; lia..]. }
  do 3 f_equal; [lia|]. rewrite H4. subst rs.
  rewrite length_take, length_drop. lia.
Qed.

(** ** The pagination on an example: three rows, the first of which has
    been deleted from the dict. *)

Definition three_rows : list row :=
  [["2016"; "Olivia"]; ["2016"; "Chloe"]; ["2016"; "Sophia"]].

Definition after_deletion : Server :=
  mkServer (Some three_rows) (Some (delete 0 (index_rows three_rows))).

Definition no_file : list row := [].

(** X21 on the example: two entries are left, a page is asked at 1. *)
Lemma hyper_index_under_deletions_witness :
  let d := (indexed_dataset no_file after_deletion).1 in
  ∃ j p,
    get_hyper_index no_file (Some 1) 5 after_deletion =
      (Returns p, (indexed_dataset no_file after_deletion).2) ∧
    index p = 1 ∧
    data p = rows_between d 1 (j - 1) ∧
    page_size p = Z.of_nat (length (data p)) ∧
    page_size p ≤ 5 ∧
    (page_size p < 5 → j = Z.of_nat (size d)) ∧
    1 ≤ j ∧ j ≤ next_index p ∧ next_index p ≤ Z.of_nat (size d) ∧
    (∀ k, j ≤ k < next_index p → d !! k = None) ∧
    (next_index p < Z.of_nat (size d) → is_Some (d !! next_index p)).
Proof.
  apply (hyper_index_under_deletions no_file 1 5 after_deletion).
  - vm_compute. split; [discriminate|reflexivity].
  - lia.
Defined.

(** X22 on the example: the row at position 2 is out of reach. *)
Lemma hyper_index_reach_witness :
  let d := (indexed_dataset no_file after_deletion).1 in
  ∃ p, (get_hyper_index no_file (Some 1) 5 after_deletion).1 = Returns p ∧
    (["2016"; "Sophia"] ∈ data p →
     ∃ k, 1 ≤ k < Z.of_nat (size d) ∧ d !! k = Some ["2016"; "Sophia"]).
Proof.
  apply (hyper_index_reach no_file 1 5 after_deletion ["2016"; "Sophia"]).
  - vm_compute. split; [discriminate|reflexivity].
  - lia.
Defined.

(** X23 on the example: index 2 is not below the two entries left. *)
Lemma hyper_index_rejects_witness :
  ∃ message,
    (get_hyper_index no_file (Some 2) 5 after_deletion).1 =
      AssertionError message.
Proof.
  apply (hyper_index_rejects no_file (Some 2) 5 after_deletion).
  right. left. exists 2. split; [done|]. right. vm_compute. discriminate.
Defined.

(** X24 on an example: a new server reads a file of a header and three
    rows; the page at 1 of size 1 is the second row and the next index
    is 2. *)
Lemma hyper_index_without_deletions_witness :
  let file := ["Year"; "Name"] :: three_rows in
  let rs := take (Z.to_nat 1) (drop (Z.to_nat 1) three_rows) in
  get_hyper_index file (Some 1) 1 init =
    (Returns (mkPage 1 (Z.min (1 + 1) (Z.of_nat (length three_rows)))
                (Z.of_nat (length rs)) rs),
     (indexed_dataset file init).2).
Proof.
  apply (hyper_index_without_deletions
           (["Year"; "Name"] :: three_rows) three_rows 1 1 init).
  - vm_compute. reflexivity.
  - vm_compute. split; [discriminate|reflexivity].
  - lia.
Defined.

(** The example in full: with the first entry deleted, the page at 1
    holds the second row only. *)
Example deletion_hides_last_row :
  (get_hyper_index no_file (Some 1) 5 after_deletion).1 =
    Returns (mkPage 1 2 1 [["2016"; "Chloe"]]).
Proof. vm_compute. reflexivity. Qed.
End hypermedia_del_pagination.
